(** * aergo: state engine (state/statedb.go) and p2p request helpers
      (p2p/actorwork.go, p2p/peermanager.go)

    A shallow embedding of the Go code.  Go maps are [gmap]s, pointers that
    may be nil are [option]s, a mutated receiver is passed in and returned,
    and every call that leaves the package through a collaborator (the
    trie, the actor hub, a peer's send queue) is recorded in a call trace. *)

From Stdlib Require Import ZArith List Lia Strings.Byte String Sorted Permutation.
From stdpp Require Import base option list gmap strings sorting.

Local Open Scope Z_scope.

(** ** Bytes *)

(** Equality of bytes is decided on their numbers. *)
Definition byte_of_N_to_N (x y : byte) (H : Byte.to_N x = Byte.to_N y) : x = y :=
  f_equal (default x00) (eq_trans (eq_sym (Byte.of_to_N x))
    (eq_trans (f_equal Byte.of_N H) (Byte.of_to_N y))).

#[global] Instance byte_eq_dec : EqDecision byte := λ x y,
  match N.eq_dec (Byte.to_N x) (Byte.to_N y) with
  | left H => left (byte_of_N_to_N x y H)
  | right H => right (λ E, H (f_equal Byte.to_N E))
  end.

#[global] Program Instance byte_countable : Countable byte :=
  inj_countable Byte.to_N Byte.of_N _.
Next Obligation. intros b. apply Byte.of_to_N. Qed.

(** [bytes.Compare]: lexicographic comparison of two byte strings,
    -1, 0 or 1. *)
Fixpoint bytes_Compare (a b : list byte) : Z :=
  match a, b with
  | [], [] => 0
  | [], _ :: _ => -1
  | _ :: _, [] => 1
  | x :: a', y :: b' =>
      if (Byte.to_N x <? Byte.to_N y)%N then -1
      else if (Byte.to_N y <? Byte.to_N x)%N then 1
      else bytes_Compare a' b'
  end.

(** The [less] closure handed to [sort.Slice] in [updateTrie]. *)
Definition bytes_less (a b : list byte) : bool := bytes_Compare a b =? -1.

Definition bytes_lt (a b : list byte) : Prop := bytes_Compare a b = -1.

(** [sort.Slice]: the slice is put in an order in which no element is
    [less] than one before it.  On the distinct keys of a map and a strict
    total order that order is unique, so the sorting algorithm does not
    show; insertion is used here. *)
Section sort_Slice.
Context {A : Type} (less : A → A → bool).

Fixpoint sort_insert (x : A) (l : list A) : list A :=
  match l with
  | [] => [x]
  | y :: l' => if less x y then x :: y :: l' else y :: sort_insert x l'
  end.

Fixpoint sort_Slice (l : list A) : list A :=
  match l with
  | [] => []
  | x :: l' => sort_insert x (sort_Slice l')
  end.
End sort_Slice.

(** ** package types *)

Definition uint64_wrap (z : Z) : Z := z mod 2 ^ 64.

Definition BlockNo := Z.
Definition HashID := list byte.
Definition BlockID := HashID.
Definition AccountID := HashID.

Definition emptyAccountID : AccountID := repeat x00 32.
Definition emptyBlockID : BlockID := repeat x00 32.

(** Modelled from the spec: [types.State], the account state record (its
    declaration and [types/state.go] are not part of the sources at hand):
    a small record with a nonce and a balance, an [IsEmpty] predicate and a
    constructor of the empty state. *)
Record State := mkState { Nonce : Z; Balance : Z }.

#[global] Instance State_eq_dec : EqDecision State.
Proof. solve_decision. Defined.

Definition NewState : State := mkState 0 0.

Definition IsEmpty (st : State) : bool := (Nonce st =? 0) && (Balance st =? 0).

(** What a Go call can end in: a nil error, an error value, or a run-time
    panic. *)
Inductive error :=
  | ErrApplyBlockNo (latest this : BlockNo)
  | ErrApplyPrevBlock (latest prev : BlockID)
  | ErrRollbackBlockNo
  | ErrInvalidAccountID
  | ErrTrie (msg : string)
  | ErrStore (msg : string).

Inductive result :=
  | Nil
  | Err (e : error)
  | Panic (msg : string).


(** The collaborators of the state engine whose code lives elsewhere.
    [State_GetHash] takes the receiver pointer, which [updateTrie] does not
    check for nil: [None] as a result stands for a nil dereference inside
    the method.  [trie_Update] returns the trie as the call leaves it
    together with its error result. *)
Class Collaborators := {
  State_GetHash : option State → option (list byte);
  Trie : Type;
  trie_Root : Trie → list byte;
  trie_Update : Trie → list (list byte) → list (list byte) → Trie * option error;
  trie_Commit : Trie → Trie;
}.

(** ** package state *)

Record BlockInfo := mkBlockInfo {
  BlockNo_ : BlockNo;
  BlockHash : BlockID;
  PrevHash : BlockID;
}.

(** [State] and [Undo] are pointers to account states; either may be nil. *)
Record StateEntry := mkStateEntry {
  se_State : option State;
  se_Undo : option State;
}.

Record BlockState := mkBlockState {
  bs_BlockInfo : BlockInfo;
  bs_accounts : gmap AccountID StateEntry;
}.

#[global] Instance BlockInfo_eq_dec : EqDecision BlockInfo.
Proof. solve_decision. Defined.

#[global] Instance StateEntry_eq_dec : EqDecision StateEntry.
Proof. solve_decision. Defined.

Definition NewStateEntry (state undo : option State) : StateEntry :=
  let undo :=
    match undo with
    | Some u => if IsEmpty u then None else undo
    | None => undo
    end in
  mkStateEntry state undo.

Definition NewBlockState (blockNo : BlockNo) (blockHash prevHash : BlockID)
  : BlockState :=
  mkBlockState (mkBlockInfo blockNo blockHash prevHash) ∅.

Definition PutAccount (bs : BlockState) (aid : AccountID)
    (state change : option State) : BlockState :=
  match bs_accounts bs !! aid with
  | Some prev =>
      mkBlockState (bs_BlockInfo bs)
        (<[aid := mkStateEntry change (se_Undo prev)]> (bs_accounts bs))
  | None =>
      mkBlockState (bs_BlockInfo bs)
        (<[aid := NewStateEntry change state]> (bs_accounts bs))
  end.

(** Modelled from the spec: the key-value store behind the engine and the
    helpers [saveBlockState], [loadBlockState] and [saveStateDB] (their
    file is not part of the sources at hand).  Each block state is stored
    under its block hash; the accounts snapshot and the latest pointer have
    a namespace each; an I/O failure of the store is surfaced as an error
    and writes nothing. *)
Record Store := mkStore {
  blockStates : gmap BlockID BlockState;
  stateAccounts : gmap AccountID (option State);
  stateLatest : option BlockInfo;
  ioFailure : bool;
}.

Definition store_save_block (db : Store) (bs : BlockState) : Store :=
  if ioFailure db then db
  else mkStore (<[BlockHash (bs_BlockInfo bs) := bs]> (blockStates db))
         (stateAccounts db) (stateLatest db) (ioFailure db).

Definition store_load_block (db : Store) (bid : BlockID)
  : error + BlockState :=
  if ioFailure db then inl (ErrStore "i/o failure")
  else match blockStates db !! bid with
       | Some bs => inr bs
       | None => inl (ErrStore "block state not found")
       end.

Definition store_save_state (db : Store)
    (accs : gmap AccountID (option State)) (l : BlockInfo)
  : Store * option error :=
  if ioFailure db then (db, Some (ErrStore "i/o failure"))
  else (mkStore (blockStates db) accs (Some l) (ioFailure db), None).

(** A call of the engine into the trie. *)
Inductive TrieCall :=
  | CallUpdate (keys vals : list (list byte))
  | CallCommit.

#[global] Instance TrieCall_eq_dec : EqDecision TrieCall.
Proof. solve_decision. Defined.

Definition is_Commit (c : TrieCall) : bool :=
  match c with CallCommit => true | CallUpdate _ _ => false end.

Definition is_Update (c : TrieCall) : bool :=
  match c with CallUpdate _ _ => true | CallCommit => false end.

Section Engine.
Context `{C : Collaborators}.

(** The engine once [Init] and [SetGenesis] have run, so that [trie] and
    [latest] are set.  [calls] is the trace of the calls made into the
    trie, oldest first; it is not a field of the Go struct. *)
Record ChainStateDB := mkChainStateDB {
  accounts : gmap AccountID (option State);
  trie : Trie;
  latest : BlockInfo;
  statedb : Store;
  calls : list TrieCall;
}.

Definition saveBlockState (sdb : ChainStateDB) (bs : BlockState)
  : ChainStateDB :=
  mkChainStateDB (accounts sdb) (trie sdb) (latest sdb)
    (store_save_block (statedb sdb) bs) (calls sdb).

Definition loadBlockState (sdb : ChainStateDB) (bid : BlockID)
  : error + BlockState :=
  store_load_block (statedb sdb) bid.

Definition saveStateDB (sdb : ChainStateDB) : ChainStateDB * result :=
  let '(db, err) := store_save_state (statedb sdb) (accounts sdb) (latest sdb) in
  (mkChainStateDB (accounts sdb) (trie sdb) (latest sdb) db (calls sdb),
   match err with Some e => Err e | None => Nil end).

Definition set_accounts (sdb : ChainStateDB)
    (m : gmap AccountID (option State)) : ChainStateDB :=
  mkChainStateDB m (trie sdb) (latest sdb) (statedb sdb) (calls sdb).

Definition set_latest (sdb : ChainStateDB) (l : BlockInfo) : ChainStateDB :=
  mkChainStateDB (accounts sdb) (trie sdb) l (statedb sdb) (calls sdb).

(** A call into the trie: the trie is replaced by what the call leaves
    and the call is appended to the trace. *)
Definition call_trie (sdb : ChainStateDB) (t : Trie) (c : TrieCall)
  : ChainStateDB :=
  mkChainStateDB (accounts sdb) t (latest sdb) (statedb sdb) (calls sdb ++ [c]).

Definition getAccountState (sdb : ChainStateDB) (aid : AccountID)
  : ChainStateDB * (error + option State) :=
  if decide (aid = emptyAccountID) then (sdb, inl ErrInvalidAccountID)
  else match accounts sdb !! aid with
       | Some state => (sdb, inr state)
       | None =>
           let state := Some NewState in
           (set_accounts sdb (<[aid := state]> (accounts sdb)), inr state)
       end.

(** The clone is taken of the dereferenced [state]: a nil [state] panics. *)
Definition GetAccountStateClone (sdb : ChainStateDB) (aid : AccountID)
  : ChainStateDB * (result + State) :=
  match getAccountState sdb aid with
  | (sdb', inl err) => (sdb', inl (Err err))
  | (sdb', inr None) => (sdb', inl (Panic "nil pointer dereference"))
  | (sdb', inr (Some st)) => (sdb', inr st)
  end.

(** The sorted slice [accs] of [updateTrie]: the keys of the block
    state's account map, sorted bytewise. *)
Definition sorted_accounts (bstate : BlockState) : list AccountID :=
  sort_Slice bytes_less (map_to_list (bs_accounts bstate)).*1.

(** The loop [for i, v := range accs { keys[i] = v[:] ... }] of
    [updateTrie].  [v] is one array variable for all rounds of the loop
    (the range variable of a Go before 1.22; the repository declares no
    language version), and [v[:]] is a slice of that variable, not a copy
    of it: each round overwrites [v] with the next account and adds one
    more view of [v] to [keys].  [range_keys v n accs] is what the [n]
    views made so far and those of the rounds still to come show when the
    loop has ended, which is when [trie.Update] reads them. *)
Fixpoint range_keys (v : AccountID) (n : nat) (accs : list AccountID)
  : list (list byte) :=
  match accs with
  | [] => replicate n v
  | a :: rest => range_keys a (S n) rest
  end.

(** The slice [keys] that [updateTrie] hands to [trie.Update]. *)
Definition update_keys (bstate : BlockState) : list (list byte) :=
  range_keys emptyAccountID 0 (sorted_accounts bstate).

(** [vals[i]] of [updateTrie] for the account [v]. *)
Definition entry_hash (bstate : BlockState) (undo : bool) (v : AccountID)
  : option (list byte) :=
  e ← bs_accounts bstate !! v;
  State_GetHash (if undo then se_Undo e else se_State e).

Definition updateTrie (sdb : ChainStateDB) (bstate : BlockState) (undo : bool)
  : ChainStateDB * result :=
  let size := Z.of_nat (size (bs_accounts bstate)) in
  if size <=? 0 then (sdb, Nil)
  else
    let accs := sorted_accounts bstate in
    let keys := range_keys emptyAccountID 0 accs in
    match mapM (entry_hash bstate undo) accs with
    | None => (sdb, Panic "nil pointer dereference")
    | Some vals =>
        if size >? 0 then
          let '(t, err) := trie_Update (trie sdb) keys vals in
          (call_trie sdb t (CallUpdate keys vals),
           match err with Some e => Err e | None => Nil end)
        else (call_trie sdb (trie_Commit (trie sdb)) CallCommit, Nil)
    end.

Definition revertTrie (sdb : ChainStateDB) (bstate : BlockState)
  : ChainStateDB * result :=
  updateTrie sdb bstate true.

(** [for k, v := range m { sdb.accounts[k] = f(v) }] *)
Definition assign_accounts (f : StateEntry → option State)
    (m : gmap AccountID StateEntry) (accs : gmap AccountID (option State))
  : gmap AccountID (option State) :=
  map_fold (λ k v acc, <[k := f v]> acc) accs m.

Definition Apply (sdb : ChainStateDB) (bstate : BlockState)
  : ChainStateDB * result :=
  if negb (uint64_wrap (BlockNo_ (latest sdb) + 1) =? BlockNo_ (bs_BlockInfo bstate))
  then (sdb, Err (ErrApplyBlockNo (BlockNo_ (latest sdb))
                    (BlockNo_ (bs_BlockInfo bstate))))
  else if negb (bool_decide (BlockHash (latest sdb) = PrevHash (bs_BlockInfo bstate)))
  then (sdb, Err (ErrApplyPrevBlock (BlockHash (latest sdb))
                    (PrevHash (bs_BlockInfo bstate))))
  else
    let sdb := saveBlockState sdb bstate in
    let sdb := set_accounts sdb
                 (assign_accounts se_State (bs_accounts bstate) (accounts sdb)) in
    match updateTrie sdb bstate false with
    | (sdb, Nil) =>
        let sdb := set_latest sdb (bs_BlockInfo bstate) in
        saveStateDB sdb
    | (sdb, err) => (sdb, err)
    end.

(** The loop of [Rollback].  Nothing in the loop bounds the number of
    rounds (it follows the stored previous-hash links), so the model
    takes fuel: [None] is "still running when the fuel ran out". *)
Fixpoint Rollback_loop (fuel : nat) (blockNo : BlockNo) (target : BlockInfo)
    (sdb : ChainStateDB) : option (ChainStateDB * result) :=
  match fuel with
  | O => None
  | S fuel' =>
      if BlockNo_ target >=? blockNo then
        match loadBlockState sdb (BlockHash target) with
        | inl err => Some (sdb, Err err)
        | inr bs =>
            let sdb := set_latest sdb (bs_BlockInfo bs) in
            if BlockNo_ target =? blockNo then Some (saveStateDB sdb)
            else
              let sdb := set_accounts sdb
                           (assign_accounts se_Undo (bs_accounts bs) (accounts sdb)) in
              match revertTrie sdb bs with
              | (sdb, Nil) =>
                  let target :=
                    mkBlockInfo (uint64_wrap (BlockNo_ (latest sdb) - 1))
                      (PrevHash (latest sdb)) emptyBlockID in
                  Rollback_loop fuel' blockNo target sdb
              | (sdb, err) => Some (sdb, err)
              end
        end
      else Some (saveStateDB sdb)
  end.

Definition Rollback (fuel : nat) (sdb : ChainStateDB) (blockNo : BlockNo)
  : option (ChainStateDB * result) :=
  if BlockNo_ (latest sdb) <=? blockNo then Some (sdb, Err ErrRollbackBlockNo)
  else Rollback_loop fuel blockNo (latest sdb) sdb.

Definition GetHash (sdb : ChainStateDB) : list byte := trie_Root (trie sdb).

(** [SetGenesis], given the block id of the genesis block. *)
Definition SetGenesis (sdb : ChainStateDB) (genesisHash : BlockID)
  : ChainStateDB * result :=
  let gbInfo := mkBlockInfo 0 genesisHash emptyBlockID in
  let sdb := set_latest sdb gbInfo in
  let bstate := NewBlockState (BlockNo_ gbInfo) (BlockHash gbInfo) emptyBlockID in
  let sdb := saveBlockState sdb bstate in
  saveStateDB sdb.

(** [Apply] past its two checks. *)
Definition Apply_body (sdb : ChainStateDB) (bstate : BlockState) : ChainStateDB * result :=
  let sdb1 := set_accounts (saveBlockState sdb bstate)
                (assign_accounts se_State (bs_accounts bstate) (accounts sdb)) in
  match updateTrie sdb1 bstate false with
  | (sdb2, Nil) => saveStateDB (set_latest sdb2 (bs_BlockInfo bstate))
  | (sdb2, err) => (sdb2, err)
  end.

(** The calls into the trie made between [sdb] and [sdb']. *)
Definition new_calls (sdb sdb' : ChainStateDB) : list TrieCall :=
  drop (length (calls sdb)) (calls sdb').


(** The values handed to [trie.Update] for a block state: the hashes of
    the post states, or of the pre states when undoing. *)
Definition update_vals (bstate : BlockState) (undo : bool)
  : option (list (list byte)) :=
  mapM (entry_hash bstate undo) (sorted_accounts bstate).



(** A call is the undo pass of a block state of the log. *)
Definition logged_undo_call (log : gmap BlockID BlockState) (c : TrieCall)
  : Prop :=
  ∃ h bs vals,
    log !! h = Some bs
    ∧ update_vals bs true = Some vals
    ∧ c = CallUpdate (update_keys bs) vals.

Definition Apply_mismatch (sdb : ChainStateDB) (bstate : BlockState) : Prop :=
  uint64_wrap (BlockNo_ (latest sdb) + 1) ≠ BlockNo_ (bs_BlockInfo bstate)
  ∨ BlockHash (latest sdb) ≠ PrevHash (bs_BlockInfo bstate).

End Engine.

(** ** package p2p *)

Module p2p.

(** [peer.ID] is a string type. *)
Definition PeerID := string.

(** Modelled from the spec: [types.PeerState] (its declaration is not part
    of the sources at hand), the states of the peer state machine
    [CONNECTING → HANDSHAKING → RUNNING → STOPPING]. *)
Inductive PeerState := CONNECTING | HANDSHAKING | RUNNING | STOPPING.

#[global] Instance PeerState_eq_dec : EqDecision PeerState.
Proof. solve_decision. Defined.

(** The protocol ids registered by [insertHandlers]. *)
Inductive SubProtocol :=
  | pingRequest | pingResponse | goAway
  | addressesRequest | addressesResponse
  | getBlocksRequest | getBlocksResponse
  | getBlockHeadersRequest | getBlockHeadersResponse
  | getMissingRequest | newBlockNotice
  | getTXsRequest | getTxsResponse | newTxNotice.

#[global] Instance SubProtocol_eq_dec : EqDecision SubProtocol.
Proof. solve_decision. Defined.

(** Modelled from the spec: the wire names of the protocol ids (the
    constants are declared in a file that is not part of the sources at
    hand), as listed in the message catalogue. *)
Definition protocol_name (p : SubProtocol) : string :=
  match p with
  | pingRequest => "ping/req"
  | pingResponse => "ping/resp"
  | goAway => "goAway"
  | addressesRequest => "addresses/req"
  | addressesResponse => "addresses/resp"
  | getBlocksRequest => "getBlocks/req"
  | getBlocksResponse => "getBlocks/resp"
  | getBlockHeadersRequest => "getBlockHeaders/req"
  | getBlockHeadersResponse => "getBlockHeaders/resp"
  | getMissingRequest => "getMissing/req"
  | newBlockNotice => "newBlock/notice"
  | getTXsRequest => "getTXs/req"
  | getTxsResponse => "getTXs/resp"
  | newTxNotice => "newTX/notice"
  end.

(** The protobuf bodies built in [actorwork.go]. *)
Inductive pbMessage :=
  | GetBlockRequest (Hashes : list (list byte))
  | NewBlockNotice (BlockHash : list byte) (BlockNo : Z)
  | GetMissingRequest (Hashes : list (list byte)) (Stophash : list byte)
  | GetTransactionsRequest (Hashes : list (list byte))
  | NewTransactionsNotice (TxHashes : list (list byte)).

(** A message order as [newPbMsgRequestOrder] and [newPbMsgBroadcastOrder]
    are called to build it: the order keeps the arguments of the call. *)
Inductive msgOrder :=
  | pbRequestOrder (expecteResponse sign : bool)
      (protocolID : SubProtocol) (message : pbMessage)
  | pbBroadcastOrder (sign : bool)
      (protocolID : SubProtocol) (message : pbMessage).

Definition newPbMsgRequestOrder := pbRequestOrder.
Definition newPbMsgBroadcastOrder := pbBroadcastOrder.

Definition order_protocol (m : msgOrder) : SubProtocol :=
  match m with
  | pbRequestOrder _ _ p _ => p
  | pbBroadcastOrder _ p _ => p
  end.

Record RemotePeer := mkRemotePeer {
  meta_ID : PeerID;
  state : PeerState;
}.

#[global] Instance RemotePeer_eq_dec : EqDecision RemotePeer.
Proof. solve_decision. Defined.

(** [lru.Cache] of hashicorp/golang-lru, as the library documents it: a
    bounded list of entries, the most recently added first; adding to a
    full cache evicts the oldest entry. *)
Record lruCache := mkLru {
  lru_size : nat;
  lru_items : list (string * list byte);
}.

Definition lru_New (size : nat) : lruCache := mkLru size [].

Definition lru_Contains (c : lruCache) (key : string) : bool :=
  bool_decide (key ∈ (lru_items c).*1).

Definition lru_Add (c : lruCache) (key : string) (value : list byte)
  : lruCache * bool :=
  if lru_Contains c key then
    (mkLru (lru_size c)
       ((key, value) :: filter (λ kv, kv.1 ≠ key) (lru_items c)), false)
  else
    let items := (key, value) :: lru_items c in
    if (lru_size c <? length items)%nat
    then (mkLru (lru_size c) (removelast items), true)
    else (mkLru (lru_size c) items, false).

(** [ContainsOrAdd] returns [(ok, evicted)]: whether the key was there,
    and whether adding it evicted an entry. *)
Definition lru_ContainsOrAdd (c : lruCache) (key : string) (value : list byte)
  : lruCache * (bool * bool) :=
  if lru_Contains c key then (c, (true, false))
  else let '(c', evicted) := lru_Add c key value in (c', (false, evicted)).

Definition DefaultGlobalInvCacheSize : nat := 100.

(** The messages of the actor hub used here, and the services they are
    sent to. *)
Inductive Actor := ChainSvc | P2PSvc.

Inductive hubMessage :=
  | GetBlock (BlockHash : list byte)
  | GetBlockInfos (ToWhom : PeerID) (Hashes : list (list byte)).

(** What [CallRequest] hands back to [HandleNewBlockNotice]: an error, a
    response of another type, or a [GetBlockRsp] whose [Err] is set when
    the block is not found. *)
Inductive CallResult :=
  | CallFailed (err : string)
  | CallOther
  | GetBlockRsp (resp_Err : option string).

(** The [ActorService] interface: [CallRequest] answers; [SendRequest]
    only shows in the trace. *)
Class ActorService := { CallRequest : Actor → hubMessage → CallResult }.

(** The calls that leave the package. *)
Inductive Event :=
  | EvSendMessage (receiver : option RemotePeer) (msg : msgOrder)
  | EvCallRequest (to : Actor) (msg : hubMessage)
  | EvSendRequest (to : Actor) (msg : hubMessage).

Inductive outcome (A : Type) :=
  | Returns (a : A)
  | Panics (msg : string).
Arguments Returns {A} a.
Arguments Panics {A} msg.

(** The fields of [peerManager] read by the code below.  [peerCache]
    holds pointers, which [NotifyNewBlock] checks for nil. *)
Record peerManager := mkPeerManager {
  remotePeers : gmap PeerID RemotePeer;
  peerCache : list (option RemotePeer);
  invCache : lruCache;
}.

Definition GetPeer (ps : peerManager) (ID : PeerID) : option RemotePeer :=
  remotePeers ps !! ID.

Definition GetPeers (ps : peerManager) : list (option RemotePeer) :=
  peerCache ps.

(** [neighbor.sendMessage(msg)] *)
Definition sendMessage (receiver : option RemotePeer) (msg : msgOrder)
  : list Event :=
  [EvSendMessage receiver msg].

Definition NotifyNewBlock (pm : peerManager) (Hash : list byte) (BlockNo : Z)
  : list Event * outcome bool :=
  (flat_map
     (λ neighbor : option RemotePeer,
        match neighbor with
        | None => []
        | Some n =>
            let req := NewBlockNotice Hash BlockNo in
            let msg := newPbMsgBroadcastOrder false newBlockNotice req in
            if decide (state n = RUNNING) then sendMessage neighbor msg else []
        end)
     (GetPeers pm),
   Returns true).

(** Go's [s[low:]] and [s[i]], which panic out of range. *)
Definition slice_from {A} (low : nat) (s : list A) : option (list A) :=
  if (low <=? length s)%nat then Some (drop low s) else None.

Definition index_at {A} (i : nat) (s : list A) : option A := s !! i.

Definition GetMissingBlocks (pm : peerManager) (peerID : PeerID)
    (hashes : list (list byte)) : list Event * outcome bool :=
  match GetPeer pm peerID with
  | None => ([], Returns false)
  | Some remotePeer =>
      let bhashes := foldl (λ acc a, acc ++ [a]) [] hashes in
      match slice_from 1 bhashes with
      | None => ([], Panics "slice bounds out of range")
      | Some rest =>
          match index_at 0 bhashes with
          | None => ([], Panics "index out of range")
          | Some stop =>
              let req := GetMissingRequest rest stop in
              (sendMessage (Some remotePeer)
                 (newPbMsgRequestOrder false true getMissingRequest req),
               Returns true)
          end
      end
  end.

Definition GetTXs (pm : peerManager) (peerID : PeerID)
    (txHashes : list (list byte)) : list Event * outcome bool :=
  match GetPeer pm peerID with
  | None => ([], Returns false)
  | Some remotePeer =>
      if (length txHashes =? 0)%nat then ([], Returns false)
      else if existsb (λ hash, (length hash =? 0)%nat) txHashes
      then ([], Returns false)
      else
        let req := GetTransactionsRequest txHashes in
        (sendMessage (Some remotePeer)
           (newPbMsgRequestOrder true true getTXsRequest req),
         Returns true)
  end.

(** [newTXs.Txs] is given by the hashes of its transactions. *)
Definition NotifyNewTX (pm : peerManager) (txHashes : list (list byte))
  : list Event * outcome bool :=
  let hashes := txHashes in
  (flat_map
     (λ peer : option RemotePeer,
        let req := NewTransactionsNotice hashes in
        sendMessage peer (newPbMsgBroadcastOrder false newBlockNotice req))
     (GetPeers pm),
   Returns true).

Definition set_invCache (ps : peerManager) (c : lruCache) : peerManager :=
  mkPeerManager (remotePeers ps) (peerCache ps) c.

Definition HandleNewBlockNotice `{ActorService} (ps : peerManager)
    (peerID : PeerID) (b64hash : string) (data_BlockHash : list byte)
  : peerManager * list Event :=
  let '(cache, (ok, _)) := lru_ContainsOrAdd (invCache ps) b64hash data_BlockHash in
  let ps := set_invCache ps cache in
  if ok then (ps, [])
  else
    let req := GetBlock data_BlockHash in
    match CallRequest ChainSvc req with
    | CallFailed _ => (ps, [EvCallRequest ChainSvc req])
    | CallOther => (ps, [EvCallRequest ChainSvc req])
    | GetBlockRsp resp_Err =>
        match resp_Err with
        | Some _ =>
            (ps, [EvCallRequest ChainSvc req;
                  EvSendRequest P2PSvc (GetBlockInfos peerID [data_BlockHash])])
        | None => (ps, [EvCallRequest ChainSvc req])
        end
    end.

(** Notices handled one after the other, each given by the peer it came
    from, the encoded hash and the hash. *)
Fixpoint HandleNewBlockNotices `{ActorService} (ps : peerManager)
    (notices : list (PeerID * string * list byte))
  : peerManager * list Event :=
  match notices with
  | [] => (ps, [])
  | (peerID, b64hash, hash) :: rest =>
      let '(ps1, ev1) := HandleNewBlockNotice ps peerID b64hash hash in
      let '(ps2, ev2) := HandleNewBlockNotices ps1 rest in
      (ps2, ev1 ++ ev2)
  end.

Definition is_GetBlock (ev : Event) : bool :=
  match ev with EvCallRequest ChainSvc (GetBlock _) => true | _ => false end.

Definition is_GetBlockInfos (ev : Event) : bool :=
  match ev with EvSendRequest P2PSvc (GetBlockInfos _ _) => true | _ => false end.

(** The common envelope of a p2p message. *)
Record MessageData := mkMessageData {
  md_PeerID : string;
  md_NodePubKey : list byte;
  md_Sign : list byte;
}.

(** The libp2p primitives and the protobuf encoder used for
    authentication; [None] is their error result. *)
Class Crypto := {
  PubKey : Type;
  UnmarshalPublicKey : list byte → option PubKey;
  IDFromPublicKey : PubKey → option PeerID;
  Verify : PubKey → list byte → list byte → option bool;
  IDB58Decode : string → option PeerID;
  Marshal : pbMessage → MessageData → option (list byte);
}.

Definition VerifyData `{Crypto} (data signature : list byte) (peerID : PeerID)
    (pubKeyData : list byte) : bool :=
  match UnmarshalPublicKey pubKeyData with
  | None => false
  | Some key =>
      match IDFromPublicKey key with
      | None => false
      | Some idFromKey =>
          if negb (bool_decide (idFromKey = peerID)) then false
          else match Verify key data signature with
               | None => false
               | Some res => res
               end
      end
  end.

(** The statements of [AuthenticateMessage] below its first [return],
    which are never reached. *)
Definition AuthenticateMessage_unreached `{Crypto} (message : pbMessage)
    (data : MessageData) : bool :=
  let sign := md_Sign data in
  match Marshal message (mkMessageData (md_PeerID data) (md_NodePubKey data) []) with
  | None => false
  | Some bin =>
      match IDB58Decode (md_PeerID data) with
      | None => false
      | Some peerID => VerifyData bin sign peerID (md_NodePubKey data)
      end
  end.

(** [AuthenticateMessage]: its body starts with [return true]. *)
Definition AuthenticateMessage `{Crypto} (ps : peerManager)
    (message : pbMessage) (data : MessageData) : bool :=
  true.

(** [GetBlocks]: the hashes are copied one by one into the request. *)
Definition GetBlocks (pm : peerManager) (peerID : PeerID)
    (blockHashes : list (list byte)) : list Event * outcome bool :=
  match GetPeer pm peerID with
  | None => ([], Returns false)
  | Some remotePeer =>
      let hashes := foldl (λ acc hash, acc ++ [hash]) [] blockHashes in
      let req := GetBlockRequest hashes in
      (sendMessage (Some remotePeer)
         (newPbMsgRequestOrder true true getBlocksRequest req),
       Returns true)
  end.

(** The slice rebuilt by [insertPeer] and [deletePeer] from the values
    of the map, in the order the map is ranged over. *)
Definition peers_of (m : gmap PeerID RemotePeer) : list (option RemotePeer) :=
  (λ kv : PeerID * RemotePeer, Some kv.2) <$> map_to_list m.

Definition insertPeer (ps : peerManager) (ID : PeerID) (peer : RemotePeer)
  : peerManager :=
  let remotePeers' := <[ID := peer]> (remotePeers ps) in
  mkPeerManager remotePeers' (peers_of remotePeers') (invCache ps).

Definition deletePeer (ps : peerManager) (ID : PeerID) : peerManager :=
  let remotePeers' := delete ID (remotePeers ps) in
  mkPeerManager remotePeers' (peers_of remotePeers') (invCache ps).

(** [tryAddInboundPeer], with the stream and the handlers left out: the
    peer made by [newRemotePeer] carries the id of [meta] and is set
    [RUNNING] before it is inserted.  [selfID] is [ps.selfMeta.ID];
    [ComparePeerID] is declared in a file that is not part of the sources
    at hand and is taken as given. *)
Definition tryAddInboundPeer (ComparePeerID : PeerID → PeerID → Z)
    (selfID : PeerID) (ps : peerManager) (meta_ID' : PeerID)
  : peerManager * bool :=
  let peerID := meta_ID' in
  let found := bool_decide (is_Some (remotePeers ps !! peerID)) in
  if found && (ComparePeerID selfID peerID <=? 0) then (ps, false)
  else (insertPeer ps peerID (mkRemotePeer meta_ID' RUNNING), true).

End p2p.

(** ** A reference instance and test data *)

(** Modelled from the spec: a trie as the spec describes the one the
    engine consumes (the trie package is not part of the sources at hand).
    [Update] replaces the values at the given keys, and the root is
    determined by the leaves.  [fails] stands for a failing KV store below
    the trie: [Update] then returns an error and changes nothing. *)
Record MemTrie := mkMemTrie { mt_leaves : gmap (list byte) (list byte) }.

Definition mem_Root (t : MemTrie) : list byte :=
  flat_map (λ kv : list byte * list byte, kv.1 ++ kv.2) (map_to_list (mt_leaves t)).

Definition mem_Update (fails : bool) (t : MemTrie) (keys vals : list (list byte))
  : MemTrie * option error :=
  if fails then (t, Some (ErrTrie "kv store failure"))
  else (mkMemTrie (list_to_map (zip keys vals) ∪ mt_leaves t), None).

Definition mem_Commit (t : MemTrie) : MemTrie := t.

(** Little-endian bytes of an unsigned integer. *)
Fixpoint le_bytes (n : nat) (z : Z) : list byte :=
  match n with
  | O => []
  | S n' => default x00 (Byte.of_N (Z.to_N (z mod 256))) :: le_bytes n' (z / 256)
  end.

(** Modelled from the spec: the hash of an account state (its code is not
    part of the sources at hand), with the digest idealised as the bytes it
    is taken of.  [nil_hash] is what a call on the nil pointer gives:
    [None] when the method dereferences its receiver. *)
Definition mem_GetHash (nil_hash : option (list byte)) (st : option State)
  : option (list byte) :=
  match st with
  | Some s => Some (le_bytes 8 (Nonce s) ++ le_bytes 8 (Balance s))
  | None => nil_hash
  end.

Definition memCollaborators (nil_hash : option (list byte)) (fails : bool)
  : Collaborators := {|
  State_GetHash := mem_GetHash nil_hash;
  Trie := MemTrie;
  trie_Root := mem_Root;
  trie_Update := mem_Update fails;
  trie_Commit := mem_Commit;
|}.

Module testdata.

Definition hG : BlockID := repeat xaa 32.
Definition h1 : BlockID := repeat xb1 32.
Definition h2 : BlockID := repeat xb2 32.
Definition A1 : AccountID := repeat x01 32.
Definition A2 : AccountID := repeat x02 32.

(** The engine right after [SetGenesis], over a trie that fails or not. *)
Definition genesis (nil_hash : option (list byte)) (trie_fails : bool)
  : @ChainStateDB (memCollaborators nil_hash trie_fails) :=
  (@SetGenesis (memCollaborators nil_hash trie_fails)
     (@mkChainStateDB (memCollaborators nil_hash trie_fails) ∅ (mkMemTrie ∅)
        (mkBlockInfo 0 emptyBlockID emptyBlockID)
        (mkStore ∅ ∅ None false) [])
     hG).1.

(** Block 1 creates [A1] and [A2]; block 2 changes [A1]. *)
Definition bs1 : BlockState :=
  PutAccount
    (PutAccount (NewBlockState 1 h1 hG) A1 (Some NewState) (Some (mkState 0 100)))
    A2 (Some NewState) (Some (mkState 0 50)).

Definition bs2 : BlockState :=
  PutAccount (NewBlockState 2 h2 h1) A1 (Some (mkState 0 100)) (Some (mkState 0 70)).

(** The engine after blocks 1 and 2. *)
Definition at_block1 (nil_hash : option (list byte))
  : @ChainStateDB (memCollaborators nil_hash false) :=
  (Apply (genesis nil_hash false) bs1).1.

Definition at_block2 (nil_hash : option (list byte))
  : @ChainStateDB (memCollaborators nil_hash false) :=
  (Apply (at_block1 nil_hash) bs2).1.

(** A peer manager with a running and a stopping peer. *)
Definition peerA : p2p.RemotePeer := p2p.mkRemotePeer "peerA" p2p.RUNNING.
Definition peerB : p2p.RemotePeer := p2p.mkRemotePeer "peerB" p2p.STOPPING.

Definition pm : p2p.peerManager :=
  p2p.mkPeerManager (<["peerA" := peerA]> (<["peerB" := peerB]> ∅))
    [Some peerA; Some peerB] (p2p.lru_New p2p.DefaultGlobalInvCacheSize).

(** A chain service that knows no block. *)
Definition chain_without_blocks : p2p.ActorService :=
  {| p2p.CallRequest := λ _ _, p2p.GetBlockRsp (Some "block not found") |}.

(** Keys that nothing unmarshals. *)
Definition no_keys : p2p.Crypto := {|
  p2p.PubKey := unit;
  p2p.UnmarshalPublicKey := λ _, None;
  p2p.IDFromPublicKey := λ _, None;
  p2p.Verify := λ _ _ _, None;
  p2p.IDB58Decode := λ s, Some s;
  p2p.Marshal := λ _ _, Some [];
|}.

End testdata.

(** ** Further functions of the state engine and of package types *)

Section Engine_reads.
Context `{C : Collaborators}.

Definition getBlockAccount (sdb : ChainStateDB) (bs : BlockState)
    (aid : AccountID) : ChainStateDB * (error + option State) :=
  if decide (aid = emptyAccountID) then (sdb, inl ErrInvalidAccountID)
  else match bs_accounts bs !! aid with
       | Some prev => (sdb, inr (se_State prev))
       | None => getAccountState sdb aid
       end.

Definition GetBlockAccountClone (sdb : ChainStateDB) (bs : BlockState)
    (aid : AccountID) : ChainStateDB * (result + State) :=
  match getBlockAccount sdb bs aid with
  | (sdb', inl err) => (sdb', inl (Err err))
  | (sdb', inr None) => (sdb', inl (Panic "nil pointer dereference"))
  | (sdb', inr (Some st)) => (sdb', inr st)
  end.

End Engine_reads.

(** The loop [for k, v := range m { sdb.accounts[k] = f(v) }] with the
    order in which the map is ranged over made explicit. *)
Definition assign_accounts_in (order : list (AccountID * StateEntry))
    (f : StateEntry → option State) (accs : gmap AccountID (option State))
  : gmap AccountID (option State) :=
  foldl (λ acc kv, <[kv.1 := f kv.2]> acc) accs order.

(** A block state filled by a sequence of [PutAccount] calls, each given
    by the account, its current state and its changed state. *)
Definition PutAccounts (bs : BlockState)
    (puts : list (AccountID * option State * option State)) : BlockState :=
  foldl (λ b p, PutAccount b p.1.1 p.1.2 p.2) bs puts.

(** [binary.LittleEndian.Uint64] of the first eight bytes. *)
Fixpoint le_value (bs : list byte) : Z :=
  match bs with
  | [] => 0
  | b :: rest => Z.of_N (Byte.to_N b) + 256 * le_value rest
  end.

Definition BlockNoToBytes (bn : BlockNo) : list byte := le_bytes 8 bn.

(** [None]: the index check of [Uint64] on a slice shorter than eight
    bytes panics. *)
Definition BlockNoFromBytes (raw : list byte) : option BlockNo :=
  if (length raw <? 8)%nat then None else Some (le_value (take 8 raw)).

Module testdata_more.

(** Keys for tests: a public key is its own encoding, the peer id of a
    key is the key read as a string, and the signature of some data under
    a key is the key followed by the data. *)
Definition plain_keys : p2p.Crypto := {|
  p2p.PubKey := list byte;
  p2p.UnmarshalPublicKey := λ raw, if decide (raw = []) then None else Some raw;
  p2p.IDFromPublicKey := λ key, Some (String.string_of_list_byte key);
  p2p.Verify := λ key data signature, Some (bool_decide (signature = key ++ data));
  p2p.IDB58Decode := λ s, Some s;
  p2p.Marshal := λ _ _, Some [];
|}.

(** [ComparePeerID] for tests: the comparison of the lengths of the ids. *)
Definition compare_length (a b : p2p.PeerID) : Z :=
  Z.of_nat (String.length a) - Z.of_nat (String.length b).

End testdata_more.

(** * Properties *)

(** ** Byte order and sorting *)

Lemma byte_to_N_inj (x y : byte) : Byte.to_N x = Byte.to_N y → x = y.
Proof.
  intros H. apply (f_equal Byte.of_N) in H.
  rewrite !Byte.of_to_N in H. congruence.
Qed.

Lemma bytes_Compare_range (a b : list byte) :
  bytes_Compare a b = -1 ∨ bytes_Compare a b = 0 ∨ bytes_Compare a b = 1.
Proof.
  revert b. induction a as [|x a IH]; intros [|y b]; simpl; auto.
  destruct (N.ltb_spec (Byte.to_N x) (Byte.to_N y)); auto.
  destruct (N.ltb_spec (Byte.to_N y) (Byte.to_N x)); auto.
Qed.

Lemma bytes_Compare_eq (a b : list byte) : bytes_Compare a b = 0 ↔ a = b.
Proof.
  revert b. induction a as [|x a IH]; intros [|y b]; simpl; try easy.
  destruct (N.ltb_spec (Byte.to_N x) (Byte.to_N y)) as [Hxy|Hxy].
  { split; [easy|]. intros [= -> _]. lia. }
  destruct (N.ltb_spec (Byte.to_N y) (Byte.to_N x)) as [Hyx|Hyx].
  { split; [easy|]. intros [= -> _]. lia. }
  assert (x = y) as -> by (apply byte_to_N_inj; lia).
  rewrite IH. split; congruence.
Qed.

Lemma bytes_Compare_flip (a b : list byte) :
  bytes_Compare b a = - bytes_Compare a b.
Proof.
  revert b. induction a as [|x a IH]; intros [|y b]; simpl; try easy.
  destruct (N.ltb_spec (Byte.to_N x) (Byte.to_N y)) as [Hxy|Hxy];
    destruct (N.ltb_spec (Byte.to_N y) (Byte.to_N x)) as [Hyx|Hyx];
    try easy; try lia; auto.
Qed.

Lemma bytes_lt_irrefl (a : list byte) : ¬ bytes_lt a a.
Proof.
  unfold bytes_lt. intros H.
  assert (bytes_Compare a a = 0) by (by apply bytes_Compare_eq). lia.
Qed.

Lemma bytes_lt_trans (a b c : list byte) :
  bytes_lt a b → bytes_lt b c → bytes_lt a c.
Proof.
  unfold bytes_lt. revert b c.
  induction a as [|x a IH]; intros [|y b] [|z c]; simpl; try easy.
  destruct (N.ltb_spec (Byte.to_N x) (Byte.to_N y)) as [Hxy|Hxy];
    destruct (N.ltb_spec (Byte.to_N y) (Byte.to_N z)) as [Hyz|Hyz];
    destruct (N.ltb_spec (Byte.to_N x) (Byte.to_N z)) as [Hxz|Hxz];
    try easy; try lia;
    destruct (N.ltb_spec (Byte.to_N y) (Byte.to_N x)) as [Hyx|Hyx];
    try easy; try lia;
    destruct (N.ltb_spec (Byte.to_N z) (Byte.to_N y)) as [Hzy|Hzy];
    try easy; try lia;
    destruct (N.ltb_spec (Byte.to_N z) (Byte.to_N x)) as [Hzx|Hzx];
    try easy; try lia; eauto.
Qed.

Lemma bytes_lt_total (a b : list byte) : a ≠ b → bytes_lt a b ∨ bytes_lt b a.
Proof.
  intros Hne. unfold bytes_lt. rewrite (bytes_Compare_flip a b).
  destruct (bytes_Compare_range a b) as [H|[H|H]]; [auto| |right; lia].
  by apply bytes_Compare_eq in H.
Qed.

Lemma bytes_less_lt (a b : list byte) : bytes_less a b = true ↔ bytes_lt a b.
Proof. unfold bytes_less, bytes_lt. apply Z.eqb_eq. Qed.

Section sort_Slice_facts.
Context {A : Type} (less : A → A → bool).
Hypothesis less_trans :
  ∀ x y z, less x y = true → less y z = true → less x z = true.
Hypothesis less_total : ∀ x y, x ≠ y → less x y = false → less y x = true.

Lemma sort_insert_perm (x : A) (l : list A) : sort_insert less x l ≡ₚ x :: l.
Proof.
  induction l as [|y l IH]; simpl; [done|].
  destruct (less x y); [done|].
  rewrite IH. apply perm_swap.
Qed.

Lemma sort_Slice_perm (l : list A) : sort_Slice less l ≡ₚ l.
Proof.
  induction l as [|x l IH]; simpl; [done|].
  by rewrite sort_insert_perm, IH.
Qed.

Lemma sort_insert_sorted (x : A) (l : list A) :
  x ∉ l →
  StronglySorted (λ a b, less a b = true) l →
  StronglySorted (λ a b, less a b = true) (sort_insert less x l).
Proof.
  induction l as [|y l IH]; intros Hx Hs; simpl.
  { repeat constructor. }
  apply not_elem_of_cons in Hx as [Hxy Hxl].
  apply StronglySorted_inv in Hs as [Hs Hy].
  destruct (less x y) eqn:Hless.
  - constructor; [by constructor|].
    constructor; [done|].
    eapply Forall_impl; [exact Hy|]. intros z Hz. by eapply less_trans.
  - constructor; [by apply IH|].
    rewrite sort_insert_perm. constructor; [|done].
    by apply less_total.
Qed.

Lemma sort_Slice_sorted (l : list A) :
  NoDup l → StronglySorted (λ a b, less a b = true) (sort_Slice less l).
Proof.
  induction 1 as [|x l Hx Hnd IH]; simpl; [constructor|].
  apply sort_insert_sorted; [|done].
  by rewrite sort_Slice_perm.
Qed.
End sort_Slice_facts.

Lemma StronglySorted_weaken {A} (R S : A → A → Prop) (l : list A) :
  (∀ x y, R x y → S x y) → StronglySorted R l → StronglySorted S l.
Proof.
  intros HRS. induction 1 as [|x l Hs IH Hx]; constructor; [done|].
  eapply Forall_impl; [exact Hx|]. auto.
Qed.

Lemma sort_bytes_sorted (l : list (list byte)) :
  NoDup l → StronglySorted bytes_lt (sort_Slice bytes_less l).
Proof.
  intros Hnd.
  eapply StronglySorted_weaken; [|apply sort_Slice_sorted; [| |exact Hnd]].
  - intros a b. apply bytes_less_lt.
  - intros x y z. rewrite !bytes_less_lt. apply bytes_lt_trans.
  - intros x y Hne Hxy. apply bytes_less_lt.
    destruct (bytes_lt_total x y Hne) as [H|H]; [|done].
    apply bytes_less_lt in H. congruence.
Qed.

Lemma StronglySorted_bytes_NoDup (l : list (list byte)) :
  StronglySorted bytes_lt l → NoDup l.
Proof.
  induction 1 as [|x l Hs IH Hx]; constructor; [|done].
  intros Hin. rewrite Forall_forall in Hx.
  by apply (bytes_lt_irrefl x), Hx.
Qed.

(** ** The state engine *)

Section Engine_facts.
Context `{C : Collaborators}.

Implicit Types (sdb : ChainStateDB) (bstate bs : BlockState).

Lemma assign_accounts_lookup (f : StateEntry → option State)
    (m : gmap AccountID StateEntry) (accs : gmap AccountID (option State))
    (k : AccountID) :
  assign_accounts f m accs !! k =
    match m !! k with Some e => Some (f e) | None => accs !! k end.
Proof.
  unfold assign_accounts.
  apply (map_fold_weak_ind (λ r m', r !! k =
    match m' !! k with Some e => Some (f e) | None => accs !! k end)).
  - by rewrite lookup_empty.
  - intros i x m' r Hi IH. destruct (decide (i = k)) as [->|Hne].
    + by rewrite !lookup_insert_eq.
    + by rewrite !lookup_insert_ne.
Qed.

Lemma assign_accounts_empty (f : StateEntry → option State)
    (accs : gmap AccountID (option State)) :
  assign_accounts f ∅ accs = accs.
Proof. apply map_eq. intros k. by rewrite assign_accounts_lookup, lookup_empty. Qed.

Lemma sorted_accounts_elem bstate (k : AccountID) :
  k ∈ sorted_accounts bstate ↔ is_Some (bs_accounts bstate !! k).
Proof.
  unfold sorted_accounts. rewrite sort_Slice_perm.
  rewrite list_elem_of_fmap. split.
  - intros [[k' e] [-> He]]. apply elem_of_map_to_list in He. by exists e.
  - intros [e He]. exists (k, e). split; [done|]. by apply elem_of_map_to_list.
Qed.

Lemma sorted_accounts_sorted bstate :
  StronglySorted bytes_lt (sorted_accounts bstate).
Proof. apply sort_bytes_sorted, NoDup_fst_map_to_list. Qed.

Lemma sorted_accounts_length bstate :
  length (sorted_accounts bstate) = size (bs_accounts bstate).
Proof.
  unfold sorted_accounts.
  by rewrite sort_Slice_perm, length_fmap, length_map_to_list.
Qed.

Lemma range_keys_replicate (v : AccountID) (n : nat) (accs : list AccountID) :
  range_keys v n accs = replicate (n + length accs) (default v (last accs)).
Proof.
  revert v n. induction accs as [|a rest IH]; intros v n.
  - simpl. rewrite Nat.add_0_r. reflexivity.
  - change (range_keys v n (a :: rest)) with (range_keys a (S n) rest).
    rewrite IH, last_cons. simpl length.
    replace (S n + length rest)%nat with (n + S (length rest))%nat by lia.
    by destruct (last rest).
Qed.

Lemma update_keys_replicate bstate :
  update_keys bstate
  = replicate (size (bs_accounts bstate))
      (default emptyAccountID (last (sorted_accounts bstate))).
Proof.
  unfold update_keys. by rewrite range_keys_replicate, sorted_accounts_length.
Qed.

(** What [updateTrie] leaves: everything but the trie and the trace is
    as before, and the trace grows by at most one [Update]. *)
Lemma updateTrie_unfold sdb bstate (undo : bool) :
  updateTrie sdb bstate undo =
    if decide (bs_accounts bstate = ∅) then (sdb, Nil)
    else match mapM (entry_hash bstate undo) (sorted_accounts bstate) with
         | None => (sdb, Panic "nil pointer dereference")
         | Some vals =>
             (call_trie sdb
                (trie_Update (trie sdb) (update_keys bstate) vals).1
                (CallUpdate (update_keys bstate) vals),
              match (trie_Update (trie sdb) (update_keys bstate) vals).2 with
              | Some e => Err e
              | None => Nil
              end)
         end.
Proof.
  unfold updateTrie.
  destruct (decide (bs_accounts bstate = ∅)) as [He|Hne].
  { rewrite He, map_size_empty. done. }
  apply map_size_non_empty_iff in Hne.
  destruct (Z.leb_spec (Z.of_nat (size (bs_accounts bstate))) 0); [lia|].
  destruct (mapM _ _) as [vals|]; [|done].
  destruct (Z.gtb_spec (Z.of_nat (size (bs_accounts bstate))) 0); [|lia].
  by destruct (trie_Update _ _ _).
Qed.

Lemma updateTrie_frame sdb bstate (undo : bool) :
  accounts (updateTrie sdb bstate undo).1 = accounts sdb
  ∧ latest (updateTrie sdb bstate undo).1 = latest sdb
  ∧ statedb (updateTrie sdb bstate undo).1 = statedb sdb.
Proof.
  rewrite updateTrie_unfold.
  destruct (decide _); [done|]. by destruct (mapM _ _).
Qed.

Lemma updateTrie_calls sdb bstate (undo : bool) :
  calls (updateTrie sdb bstate undo).1 = calls sdb
  ∨ ∃ vals,
      bs_accounts bstate ≠ ∅
      ∧ mapM (entry_hash bstate undo) (sorted_accounts bstate) = Some vals
      ∧ calls (updateTrie sdb bstate undo).1
        = calls sdb ++ [CallUpdate (update_keys bstate) vals].
Proof.
  rewrite updateTrie_unfold.
  destruct (decide _) as [|Hne]; [by left|].
  destruct (mapM _ _) as [vals|] eqn:Hv; [|by left].
  right. by exists vals.
Qed.

Lemma saveStateDB_frame sdb :
  accounts (saveStateDB sdb).1 = accounts sdb
  ∧ trie (saveStateDB sdb).1 = trie sdb
  ∧ latest (saveStateDB sdb).1 = latest sdb
  ∧ calls (saveStateDB sdb).1 = calls sdb.
Proof.
  unfold saveStateDB, store_save_state. by destruct (ioFailure _).
Qed.

Lemma Apply_checked sdb bstate :
  ¬ Apply_mismatch sdb bstate → Apply sdb bstate = Apply_body sdb bstate.
Proof.
  intros Hok. unfold Apply, Apply_body.
  destruct (Z.eqb_spec (uint64_wrap (BlockNo_ (latest sdb) + 1))
              (BlockNo_ (bs_BlockInfo bstate))) as [Hno|Hno]; simpl.
  - case_bool_decide as Hh; simpl; [done|].
    exfalso. apply Hok. by right.
  - exfalso. apply Hok. by left.
Qed.

Lemma Apply_rejected sdb bstate :
  Apply_mismatch sdb bstate →
  ∃ e, Apply sdb bstate = (sdb, Err e).
Proof.
  intros Hbad. unfold Apply.
  destruct (Z.eqb_spec (uint64_wrap (BlockNo_ (latest sdb) + 1))
              (BlockNo_ (bs_BlockInfo bstate))) as [Hno|Hno]; simpl.
  - case_bool_decide as Hh; simpl; [|by eexists].
    destruct Hbad; contradiction.
  - by eexists.
Qed.

Lemma Apply_mismatch_dec sdb bstate :
  Apply_mismatch sdb bstate ∨ ¬ Apply_mismatch sdb bstate.
Proof.
  unfold Apply_mismatch.
  destruct (decide (uint64_wrap (BlockNo_ (latest sdb) + 1)
                    = BlockNo_ (bs_BlockInfo bstate)));
    destruct (decide (BlockHash (latest sdb) = PrevHash (bs_BlockInfo bstate)));
    tauto.
Qed.

Lemma new_calls_app sdb sdb' (l : list TrieCall) :
  calls sdb' = calls sdb ++ l → new_calls sdb sdb' = l.
Proof. unfold new_calls. intros ->. by rewrite drop_app_length. Qed.

Lemma new_calls_same sdb sdb' : calls sdb' = calls sdb → new_calls sdb sdb' = [].
Proof. intros H. apply new_calls_app. by rewrite app_nil_r. Qed.

Lemma updateTrie_new_calls sdb bstate (undo : bool) :
  new_calls sdb (updateTrie sdb bstate undo).1 =
    match update_vals bstate undo with
    | Some vals =>
        if decide (bs_accounts bstate = ∅) then []
        else [CallUpdate (update_keys bstate) vals]
    | None => []
    end.
Proof.
  rewrite updateTrie_unfold. unfold update_vals.
  destruct (decide _) as [He|Hne].
  - destruct (mapM _ _); by apply new_calls_same.
  - destruct (mapM _ _); simpl; [by apply new_calls_app|by apply new_calls_same].
Qed.

Lemma Apply_body_calls sdb bstate :
  calls (Apply_body sdb bstate).1
  = calls (updateTrie sdb bstate false).1.
Proof.
  unfold Apply_body.
  set (sdb1 := set_accounts _ _).
  assert (calls (updateTrie sdb1 bstate false).1
          = calls (updateTrie sdb bstate false).1) as <-.
  { rewrite !updateTrie_unfold. destruct (decide _); [done|].
    by destruct (mapM _ _). }
  destruct (updateTrie sdb1 bstate false) as [sdb2 [| |]]; simpl; try done.
  by destruct (saveStateDB_frame (set_latest sdb2 (bs_BlockInfo bstate)))
    as (_ & _ & _ & ->).
Qed.

Lemma Apply_new_calls sdb bstate :
  new_calls sdb (Apply sdb bstate).1 = []
  ∨ (¬ Apply_mismatch sdb bstate
     ∧ new_calls sdb (Apply sdb bstate).1
       = new_calls sdb (updateTrie sdb bstate false).1).
Proof.
  destruct (Apply_mismatch_dec sdb bstate) as [Hbad|Hok].
  - left. destruct (Apply_rejected _ _ Hbad) as [e ->]. by apply new_calls_same.
  - right. split; [done|]. rewrite (Apply_checked _ _ Hok).
    unfold new_calls. by rewrite Apply_body_calls.
Qed.

(** C5, as the code has it: [Apply] never calls [Commit].  Whatever the
    engine and the block state, the calls [Apply] makes into the trie are
    none at all or the single [Update] of the block's accounts; the
    [Commit] that follows it in [updateTrie] is behind a [return]. *)
Theorem Apply_calls_no_Commit sdb bstate :
  (new_calls sdb (Apply sdb bstate).1 = []
   ∨ ∃ vals, new_calls sdb (Apply sdb bstate).1
             = [CallUpdate (update_keys bstate) vals])
  ∧ CallCommit ∉ new_calls sdb (Apply sdb bstate).1.
Proof.
  assert (new_calls sdb (Apply sdb bstate).1 = []
   ∨ ∃ vals, new_calls sdb (Apply sdb bstate).1
             = [CallUpdate (update_keys bstate) vals]) as Hc.
  { destruct (Apply_new_calls sdb bstate) as [->|[_ ->]]; [by left|].
    rewrite updateTrie_new_calls.
    destruct (update_vals _ _) as [vals|]; [|by left].
    destruct (decide _); [by left|]. right. by exists vals. }
  split; [done|].
  destruct Hc as [->|[vals ->]].
  - apply not_elem_of_nil.
  - intros Hin. apply list_elem_of_singleton in Hin. discriminate.
Qed.


End Engine_facts.


(** Block 1 applied to the genesis engine: [Apply] returns nil, and its
    only call into the trie is one [Update], with two views of the last
    account as keys and the hashes of the two accounts as values. *)
Example Apply_success_without_Commit :
  (Apply (testdata.genesis None false) testdata.bs1).2 = Nil
  ∧ bs_accounts testdata.bs1 ≠ ∅
  ∧ new_calls (testdata.genesis None false)
      (Apply (testdata.genesis None false) testdata.bs1).1
    = [CallUpdate [testdata.A2; testdata.A2]
         [le_bytes 8 0 ++ le_bytes 8 100; le_bytes 8 0 ++ le_bytes 8 50]].
Proof.
  split; [vm_compute; reflexivity|]. split.
  - intros H.
    apply (f_equal (λ m : gmap AccountID StateEntry, m !! testdata.A1)) in H.
    vm_compute in H. discriminate.
  - vm_compute. reflexivity.
Qed.


(** ** Rollback *)

Section Rollback_facts.
Context `{C : Collaborators}.

Implicit Types (sdb : ChainStateDB) (bs kept : BlockState).

Lemma uint64_wrap_small (z : Z) : 0 ≤ z < 2 ^ 64 → uint64_wrap z = z.
Proof. intros H. unfold uint64_wrap. by apply Z.mod_small. Qed.

Lemma Rollback_loop_S (fuel : nat) (blockNo : BlockNo) (target : BlockInfo) sdb :
  Rollback_loop (S fuel) blockNo target sdb =
    if BlockNo_ target >=? blockNo then
      match loadBlockState sdb (BlockHash target) with
      | inl err => Some (sdb, Err err)
      | inr bs =>
          if BlockNo_ target =? blockNo
          then Some (saveStateDB (set_latest sdb (bs_BlockInfo bs)))
          else
            match revertTrie
                    (set_accounts (set_latest sdb (bs_BlockInfo bs))
                       (assign_accounts se_Undo (bs_accounts bs) (accounts sdb)))
                    bs with
            | (sdb2, Nil) =>
                Rollback_loop fuel blockNo
                  (mkBlockInfo (uint64_wrap (BlockNo_ (latest sdb2) - 1))
                     (PrevHash (latest sdb2)) emptyBlockID) sdb2
            | (sdb2, err) => Some (sdb2, err)
            end
      end
    else Some (saveStateDB sdb).
Proof. reflexivity. Qed.

Lemma loadBlockState_logged sdb (h : BlockID) bs :
  ioFailure (statedb sdb) = false →
  blockStates (statedb sdb) !! h = Some bs →
  loadBlockState sdb h = inr bs.
Proof.
  intros Hio Hh. unfold loadBlockState, store_load_block. by rewrite Hio, Hh.
Qed.





End Rollback_facts.

(** ** The keys handed to the trie, and Apply followed by Rollback *)

Section Roundtrip_facts.
Context `{C : Collaborators}.

Implicit Types (sdb : ChainStateDB) (bs bstate : BlockState).

Lemma loadBlockState_inr sdb (h : BlockID) bs :
  loadBlockState sdb h = inr bs →
  ioFailure (statedb sdb) = false ∧ blockStates (statedb sdb) !! h = Some bs.
Proof.
  unfold loadBlockState, store_load_block.
  destruct (ioFailure _); [done|].
  destruct (_ !! h); [|done]. by intros [= ->].
Qed.

Lemma Rollback_loop_calls (blockNo : BlockNo) (fuel : nat) :
  ∀ (target : BlockInfo) sdb sdb' (r : result),
    Rollback_loop fuel blockNo target sdb = Some (sdb', r) →
    ∃ l, calls sdb' = calls sdb ++ l
         ∧ Forall (logged_undo_call (blockStates (statedb sdb))) l.
Proof.
  induction fuel as [|fuel IH]; intros target sdb sdb' r; [done|].
  rewrite Rollback_loop_S.
  assert (∀ s, Some (saveStateDB s) = Some (sdb', r) →
               calls s = calls sdb →
               ∃ l, calls sdb' = calls sdb ++ l
                    ∧ Forall (logged_undo_call (blockStates (statedb sdb))) l)
    as Hsave.
  { intros s [= Hs] Hc. exists []. split; [|constructor].
    destruct (saveStateDB_frame s) as (_ & _ & _ & Hc').
    rewrite Hs in Hc'. simpl in Hc'. by rewrite Hc', Hc, app_nil_r. }
  destruct (BlockNo_ target >=? blockNo); [|by eauto].
  destruct (loadBlockState sdb (BlockHash target)) as [err|bs] eqn:Hload.
  { intros [= <- <-]. exists []. by rewrite app_nil_r. }
  apply loadBlockState_inr in Hload as [_ Hload].
  destruct (BlockNo_ target =? blockNo); [by eauto|].
  set (sdb1 := set_accounts _ _).
  destruct (updateTrie_frame sdb1 bs true) as (_ & _ & Hs).
  pose proof (updateTrie_calls sdb1 bs true) as Hc.
  unfold revertTrie.
  destruct (updateTrie sdb1 bs true) as [sdb2 r2]. simpl in Hs, Hc.
  assert (∃ l, calls sdb2 = calls sdb ++ l
               ∧ Forall (logged_undo_call (blockStates (statedb sdb))) l)
    as (l2 & Hl2 & Hf2).
  { destruct Hc as [Hc|(vals & _ & Hvals & Hc)].
    - exists []. by rewrite Hc, app_nil_r.
    - eexists. split; [exact Hc|]. repeat constructor.
      by exists (BlockHash target), bs, vals. }
  destruct r2 as [|e|msg].
  - intros Hrun. apply IH in Hrun as (l & Hl & Hf).
    exists (l2 ++ l). rewrite Hl, Hl2, app_assoc. split; [done|].
    apply Forall_app. split; [done|]. by rewrite Hs in Hf.
  - intros [= <- <-]. eauto.
  - intros [= <- <-]. eauto.
Qed.

(** C4, as the code has it.  [updateTrie] sorts the account ids of the
    block state into strictly ascending byte order, without duplicates,
    but the keys it hands to the trie are not these ids: they are as many
    views of the one range variable as the block state has accounts, so
    every key is the last, the greatest, of the sorted ids.  The apply
    pass and the undo pass of a block state make the same single [Update]
    over these keys, with the post hashes and the pre hashes of the
    accounts in ascending order of their ids as values, and these are the
    only calls [Apply] and [Rollback] make into the trie.  For a block
    state of two or more accounts the keys are not free of duplicates, not
    strictly ascending, and not the sorted ids. *)
Theorem updateTrie_keys_aliased sdb bstate :
  (StronglySorted bytes_lt (sorted_accounts bstate)
   ∧ NoDup (sorted_accounts bstate)
   ∧ ∀ k, k ∈ sorted_accounts bstate ↔ is_Some (bs_accounts bstate !! k))
  ∧ update_keys bstate
    = replicate (size (bs_accounts bstate))
        (default emptyAccountID (last (sorted_accounts bstate)))
  ∧ (∀ undo : bool,
       new_calls sdb (updateTrie sdb bstate undo).1 =
         match update_vals bstate undo with
         | Some vals =>
             if decide (bs_accounts bstate = ∅) then []
             else [CallUpdate (update_keys bstate) vals]
         | None => []
         end)
  ∧ (∀ keys vals,
       CallUpdate keys vals ∈ new_calls sdb (Apply sdb bstate).1 →
       keys = update_keys bstate ∧ update_vals bstate false = Some vals)
  ∧ (∀ (fuel : nat) (blockNo : BlockNo) sdb' (r : result) (c : TrieCall),
       Rollback fuel sdb blockNo = Some (sdb', r) →
       c ∈ new_calls sdb sdb' →
       ∃ h bs vals,
         blockStates (statedb sdb) !! h = Some bs
         ∧ update_vals bs true = Some vals
         ∧ c = CallUpdate (update_keys bs) vals)
  ∧ ((2 ≤ size (bs_accounts bstate))%nat →
     ¬ NoDup (update_keys bstate)
     ∧ ¬ StronglySorted bytes_lt (update_keys bstate)
     ∧ update_keys bstate ≠ sorted_accounts bstate).
Proof.
  split; [|split; [|split; [|split; [|split]]]].
  - split; [apply sorted_accounts_sorted|].
    split; [apply StronglySorted_bytes_NoDup, sorted_accounts_sorted|].
    apply sorted_accounts_elem.
  - apply update_keys_replicate.
  - apply updateTrie_new_calls.
  - intros keys vals.
    destruct (Apply_new_calls sdb bstate) as [->|[_ ->]].
    { intros Hin. by apply elem_of_nil in Hin. }
    rewrite updateTrie_new_calls.
    destruct (update_vals bstate false) as [vals'|].
    + destruct (decide _).
      * intros Hin. by apply elem_of_nil in Hin.
      * intros Hin. apply list_elem_of_singleton in Hin. by injection Hin as -> ->.
    + intros Hin. by apply elem_of_nil in Hin.
  - intros fuel blockNo sdb' r c. unfold Rollback.
    destruct (BlockNo_ (latest sdb) <=? blockNo).
    { intros [= <- _]. rewrite new_calls_same by done.
      intros Hin. by apply elem_of_nil in Hin. }
    intros Hrun. apply Rollback_loop_calls in Hrun as (l & Hl & Hf).
    rewrite (new_calls_app _ _ _ Hl). intros Hin.
    rewrite Forall_forall in Hf. by apply Hf.
  - intros Hsize.
    assert (¬ NoDup (update_keys bstate)) as Hdup.
    { rewrite update_keys_replicate.
      destruct (size (bs_accounts bstate)) as [|[|n]]; [lia..|].
      simpl. intros Hnd. apply NoDup_cons in Hnd as [Hnotin _].
      apply Hnotin, list_elem_of_here. }
    split; [done|]. split.
    + intros Hs. by apply Hdup, StronglySorted_bytes_NoDup.
    + intros Heq. apply Hdup. rewrite Heq.
      apply StronglySorted_bytes_NoDup, sorted_accounts_sorted.
Qed.

Lemma Apply_Nil_inv sdb bstate :
  (Apply sdb bstate).2 = Nil →
  uint64_wrap (BlockNo_ (latest sdb) + 1) = BlockNo_ (bs_BlockInfo bstate)
  ∧ latest (Apply sdb bstate).1 = bs_BlockInfo bstate
  ∧ accounts (Apply sdb bstate).1
    = assign_accounts se_State (bs_accounts bstate) (accounts sdb)
  ∧ ioFailure (statedb (Apply sdb bstate).1) = false
  ∧ blockStates (statedb (Apply sdb bstate).1) !! BlockHash (bs_BlockInfo bstate)
    = Some bstate.
Proof.
  destruct (Apply_mismatch_dec sdb bstate) as [Hbad|Hok].
  { by destruct (Apply_rejected _ _ Hbad) as [e ->]. }
  rewrite (Apply_checked _ _ Hok). unfold Apply_body.
  set (sdb1 := set_accounts _ _).
  destruct (updateTrie_frame sdb1 bstate false) as (Ha & _ & Hs).
  destruct (updateTrie sdb1 bstate false) as [sdb2 r]. simpl in Ha, Hs.
  destruct r as [|e|msg]; [|done|done].
  unfold saveStateDB, store_save_state. simpl. rewrite Hs, Ha. simpl.
  unfold store_save_block.
  destruct (ioFailure (statedb sdb)) eqn:Hio; simpl; [rewrite ?Hio; simpl; done|].
  rewrite ?Hio. simpl. intros _.
  split.
  { destruct (decide (uint64_wrap (BlockNo_ (latest sdb) + 1)
                      = BlockNo_ (bs_BlockInfo bstate))); [done|].
    exfalso. apply Hok. by left. }
  repeat split; try done. by rewrite lookup_insert_eq.
Qed.

(** [Apply] and then [Rollback] to the block before: the rollback ends,
    with whatever result, and every account of the block state holds its
    [Undo] pointer. *)
Lemma Apply_Rollback_accounts sdb bstate :
  0 ≤ BlockNo_ (latest sdb) < 2 ^ 64 - 1 →
  (Apply sdb bstate).2 = Nil →
  ∀ fuel : nat, (2 ≤ fuel)%nat →
  ∃ sdb' (r : result),
    Rollback fuel (Apply sdb bstate).1 (BlockNo_ (bs_BlockInfo bstate) - 1)
      = Some (sdb', r)
    ∧ accounts sdb'
      = assign_accounts se_Undo (bs_accounts bstate)
          (assign_accounts se_State (bs_accounts bstate) (accounts sdb)).
Proof.
  intros Hno Hok fuel Hfuel.
  destruct (Apply_Nil_inv _ _ Hok) as (Hn & Hl & Ha & Hio & Hlog).
  rewrite uint64_wrap_small in Hn by lia.
  set (sdb0 := (Apply sdb bstate).1) in *.
  set (no := BlockNo_ (bs_BlockInfo bstate)) in *.
  unfold Rollback. rewrite Hl. fold no.
  destruct (Z.leb_spec no (no - 1)); [lia|].
  destruct fuel as [|[|fuel]]; [lia..|].
  (* first round: the block state is loaded and undone *)
  rewrite Rollback_loop_S. simpl BlockNo_. simpl BlockHash. fold no.
  destruct (Z.geb_spec no (no - 1)); [|lia].
  rewrite (loadBlockState_logged _ _ _ Hio Hlog).
  destruct (Z.eqb_spec no (no - 1)); [lia|].
  set (sdb1 := set_accounts _ _).
  assert (accounts sdb1
          = assign_accounts se_Undo (bs_accounts bstate)
              (assign_accounts se_State (bs_accounts bstate) (accounts sdb)))
    as Hacc by (unfold sdb1; simpl; by rewrite Ha).
  destruct (updateTrie_frame sdb1 bstate true) as (Ha2 & Hl2 & Hs2).
  unfold revertTrie.
  destruct (updateTrie sdb1 bstate true) as [sdb2 r2].
  simpl fst in Ha2, Hl2, Hs2. rewrite <- Ha2 in Hacc.
  destruct r2 as [|err|msg]; [|by eauto|by eauto].
  (* second round: the block before is loaded and kept *)
  rewrite Rollback_loop_S. rewrite Hl2. simpl BlockNo_. simpl BlockHash.
  fold no. rewrite uint64_wrap_small by lia.
  destruct (Z.geb_spec (no - 1) (no - 1)); [|lia].
  destruct (loadBlockState sdb2 _) as [err|bs']; [by eauto|].
  rewrite Z.eqb_refl.
  set (sdb3 := set_latest sdb2 (bs_BlockInfo bs')).
  destruct (saveStateDB_frame sdb3) as (Ha3 & _).
  destruct (saveStateDB sdb3) as [sdb4 r4]. simpl in Ha3.
  exists sdb4, r4. split; [done|]. by rewrite Ha3.
Qed.

(** Where every entry of the block state carries the state the account
    had before as its [Undo], the accounts map is restored. *)
Lemma Apply_Rollback_restores_accounts sdb bstate :
  (∀ k e, bs_accounts bstate !! k = Some e → accounts sdb !! k = Some (se_Undo e)) →
  0 ≤ BlockNo_ (latest sdb) < 2 ^ 64 - 1 →
  (Apply sdb bstate).2 = Nil →
  ∀ fuel : nat, (2 ≤ fuel)%nat →
  ∃ sdb' (r : result),
    Rollback fuel (Apply sdb bstate).1 (BlockNo_ (bs_BlockInfo bstate) - 1)
      = Some (sdb', r)
    ∧ accounts sdb' = accounts sdb.
Proof.
  intros Hpre Hno Hok fuel Hfuel.
  destruct (Apply_Rollback_accounts sdb bstate Hno Hok fuel Hfuel)
    as (sdb' & r & Hrun & Ha).
  exists sdb', r. split; [done|]. rewrite Ha. apply map_eq. intros k.
  rewrite !assign_accounts_lookup.
  destruct (bs_accounts bstate !! k) as [e|] eqn:He; [|done].
  symmetry. by apply Hpre.
Qed.

(** C3, as the code has it, at an account created by the block.  When a
    block state whose entry for [aid] has a nil [Undo] is applied and the
    engine is then rolled back to the block before, the accounts map holds
    a nil pointer under [aid], whatever the trie and the hashing do: it
    is not the map from before [Apply], where [aid] was absent or held a
    state, and [GetAccountStateClone] of [aid] panics on it. *)
Theorem Apply_Rollback_nil_undo sdb bstate (aid : AccountID) (e : StateEntry) :
  bs_accounts bstate !! aid = Some e →
  se_Undo e = None →
  accounts sdb !! aid ≠ Some None →
  aid ≠ emptyAccountID →
  0 ≤ BlockNo_ (latest sdb) < 2 ^ 64 - 1 →
  (Apply sdb bstate).2 = Nil →
  ∀ fuel : nat, (2 ≤ fuel)%nat →
  ∃ sdb' (r : result),
    Rollback fuel (Apply sdb bstate).1 (BlockNo_ (bs_BlockInfo bstate) - 1)
      = Some (sdb', r)
    ∧ accounts sdb' !! aid = Some None
    ∧ accounts sdb' ≠ accounts sdb
    ∧ (GetAccountStateClone sdb' aid).2 = inl (Panic "nil pointer dereference").
Proof.
  intros He Hundo Hpre Haid Hno Hok fuel Hfuel.
  destruct (Apply_Rollback_accounts sdb bstate Hno Hok fuel Hfuel)
    as (sdb' & r & Hrun & Ha).
  assert (accounts sdb' !! aid = Some None) as Hnil
    by by rewrite Ha, assign_accounts_lookup, He, Hundo.
  exists sdb', r. repeat split; [done..| |].
  - intros Heq. by rewrite Heq in Hnil.
  - unfold GetAccountStateClone, getAccountState.
    destruct (decide _); [done|]. by rewrite Hnil.
Qed.

End Roundtrip_facts.

(** Block 1 creates [A1]: applied to the genesis engine and rolled back
    to 0, it leaves a nil pointer under [A1]. *)
Lemma Apply_Rollback_nil_undo_witness :
  ∃ sdb' (r : result),
    Rollback 2 (Apply (testdata.genesis None false) testdata.bs1).1
      (BlockNo_ (bs_BlockInfo testdata.bs1) - 1) = Some (sdb', r)
    ∧ accounts sdb' !! testdata.A1 = Some None
    ∧ accounts sdb' ≠ accounts (testdata.genesis None false)
    ∧ (GetAccountStateClone sdb' testdata.A1).2
      = inl (Panic "nil pointer dereference").
Proof.
  apply (Apply_Rollback_nil_undo (testdata.genesis None false) testdata.bs1
           testdata.A1 (mkStateEntry (Some (mkState 0 100)) None)).
  - by vm_compute.
  - reflexivity.
  - by vm_compute.
  - by vm_compute.
  - by vm_compute.
  - by vm_compute.
  - lia.
Defined.

(** The same run, evaluated: before [Apply] the account is absent and its
    clone is the empty state; after [Apply] and [Rollback] to 0 the
    rollback has panicked in the hashing of the nil [Undo], the account is
    a nil pointer and its clone panics. *)
Example Apply_Rollback_scenario :
  accounts (testdata.genesis None false) !! testdata.A1 = None
  ∧ (GetAccountStateClone (testdata.genesis None false) testdata.A1).2
    = inr NewState
  ∧ match Rollback 2 (testdata.at_block1 None) 0 with
    | Some (sdb', r) =>
        r = Panic "nil pointer dereference"
        ∧ accounts sdb' !! testdata.A1 = Some None
        ∧ (GetAccountStateClone sdb' testdata.A1).2
          = inl (Panic "nil pointer dereference")
    | None => False
    end.
Proof. vm_compute. repeat split. Qed.

(** With a hash that takes the nil pointer for the empty state the
    rollback to 0 ends without error, and neither the accounts map nor the
    root is the one of the genesis engine. *)
Example Apply_Rollback_scenario_nil_safe :
  match Rollback 2 (testdata.at_block1 (Some [])) 0 with
  | Some (sdb', r) =>
      r = Nil
      ∧ accounts sdb' !! testdata.A1 = Some None
      ∧ GetHash sdb' ≠ GetHash (testdata.genesis (Some []) false)
  | None => False
  end.
Proof. vm_compute. repeat split. discriminate. Qed.



(** Block 1 touches [A1] and [A2]: the sorted ids are [A1; A2], and the
    keys that reach the trie are two views of [A2]. *)
Example update_keys_block1 :
  sorted_accounts testdata.bs1 = [testdata.A1; testdata.A2]
  ∧ update_keys testdata.bs1 = [testdata.A2; testdata.A2].
Proof. vm_compute. split; reflexivity. Qed.

(** The keys of block 1 are not free of duplicates, not ascending, and
    not the sorted ids. *)
Lemma updateTrie_keys_aliased_witness :
  ¬ NoDup (update_keys testdata.bs1)
  ∧ ¬ StronglySorted bytes_lt (update_keys testdata.bs1)
  ∧ update_keys testdata.bs1 ≠ sorted_accounts testdata.bs1.
Proof.
  apply (proj2 (proj2 (proj2 (proj2 (proj2
           (updateTrie_keys_aliased (testdata.genesis None false)
              testdata.bs1)))))).
  vm_compute. constructor.
Defined.

(** ** Requests and notices of the p2p service *)

Section p2p_facts.
Import p2p.

Implicit Types (pm ps : peerManager) (peer : RemotePeer).

(** [NotifyNewBlock] sends to running peers only. *)
Lemma NotifyNewBlock_only_RUNNING pm (Hash : list byte) (no : Z)
    (receiver : option RemotePeer) (msg : msgOrder) :
  EvSendMessage receiver msg ∈ (NotifyNewBlock pm Hash no).1 →
  ∃ peer, receiver = Some peer ∧ Some peer ∈ GetPeers pm ∧ state peer = RUNNING.
Proof.
  unfold NotifyNewBlock. simpl. rewrite list_elem_of_In, in_flat_map.
  intros ([peer|] & Hin & Hev); [|done].
  destruct (decide (state peer = RUNNING)) as [Hrun|]; [|done].
  destruct Hev as [[= <- <-]|[]].
  exists peer. by rewrite list_elem_of_In.
Qed.

Lemma NotifyNewTX_events pm (txHashes : list (list byte)) :
  (NotifyNewTX pm txHashes).1
  = map (λ receiver,
           EvSendMessage receiver
             (pbBroadcastOrder false newBlockNotice (NewTransactionsNotice txHashes)))
      (GetPeers pm).
Proof.
  unfold NotifyNewTX. simpl.
  induction (GetPeers pm) as [|p l IH]; simpl; [done|]. by rewrite IH.
Qed.

(** C7, as the code has it: [NotifyNewTX] does not look at the state of
    a peer.  Every peer of the snapshot is sent the notice, also one that
    is not [RUNNING]. *)
Theorem NotifyNewTX_ignores_state pm (txHashes : list (list byte)) peer :
  Some peer ∈ GetPeers pm →
  state peer ≠ RUNNING →
  EvSendMessage (Some peer)
    (pbBroadcastOrder false newBlockNotice (NewTransactionsNotice txHashes))
  ∈ (NotifyNewTX pm txHashes).1.
Proof.
  intros Hin _. rewrite NotifyNewTX_events.
  apply list_elem_of_In, in_map_iff. exists (Some peer).
  split; [done|]. by apply list_elem_of_In.
Qed.

Lemma NotifyNewTX_ignores_state_witness :
  EvSendMessage (Some testdata.peerB)
    (pbBroadcastOrder false newBlockNotice (NewTransactionsNotice [[x01]]))
  ∈ (NotifyNewTX testdata.pm [[x01]]).1.
Proof.
  apply (NotifyNewTX_ignores_state testdata.pm [[x01]] testdata.peerB).
  - unfold GetPeers, testdata.pm. simpl. apply list_elem_of_further, list_elem_of_here.
  - simpl. discriminate.
Defined.

(** C10.  [NotifyNewTX] sends one message per peer of the snapshot, and
    each of them is a broadcast order built with the protocol id
    [newBlockNotice], whose wire name is that of the new-block notice and
    not that of the new-transactions notice. *)
Theorem NotifyNewTX_protocol pm (txHashes : list (list byte)) :
  length (NotifyNewTX pm txHashes).1 = length (GetPeers pm)
  ∧ Forall (λ ev, ∃ receiver sign body,
              ev = EvSendMessage receiver (pbBroadcastOrder sign newBlockNotice body)
              ∧ body = NewTransactionsNotice txHashes)
      (NotifyNewTX pm txHashes).1
  ∧ protocol_name newBlockNotice = "newBlock/notice"
  ∧ protocol_name newBlockNotice ≠ protocol_name newTxNotice.
Proof.
  rewrite NotifyNewTX_events. split; [by rewrite length_map|].
  split; [|by split].
  apply Forall_forall. intros ev Hin.
  apply list_elem_of_In, in_map_iff in Hin as (receiver & <- & _). by eexists _, _, _.
Qed.

Lemma foldl_snoc_id {A} (l acc : list A) :
  foldl (λ acc a, acc ++ [a]) acc l = acc ++ l.
Proof.
  revert acc. induction l as [|a l IH]; intros acc; simpl.
  - by rewrite app_nil_r.
  - by rewrite IH, <- app_assoc.
Qed.

(** With a hash to stop at, [GetMissingBlocks] sends the request. *)
Lemma GetMissingBlocks_sends pm (peerID : PeerID) peer
    (stop : list byte) (rest : list (list byte)) :
  GetPeer pm peerID = Some peer →
  GetMissingBlocks pm peerID (stop :: rest)
  = ([EvSendMessage (Some peer)
        (pbRequestOrder false true getMissingRequest (GetMissingRequest rest stop))],
     Returns true).
Proof.
  intros Hp. unfold GetMissingBlocks. rewrite Hp, foldl_snoc_id. simpl.
  unfold slice_from. simpl. by rewrite drop_0.
Qed.

Lemma GetMissingBlocks_unknown_peer pm (peerID : PeerID)
    (hashes : list (list byte)) :
  GetPeer pm peerID = None →
  GetMissingBlocks pm peerID hashes = ([], Returns false).
Proof. intros Hp. unfold GetMissingBlocks. by rewrite Hp. Qed.

(** The sibling [GetTXs] checks for the empty list. *)
Lemma GetTXs_empty pm (peerID : PeerID) :
  GetTXs pm peerID [] = ([], Returns false).
Proof. unfold GetTXs. by destruct (GetPeer pm peerID). Qed.

(** C9, as the code has it: for a known peer and the empty list of
    hashes, [GetMissingBlocks] panics on slicing the empty slice from 1,
    before anything is sent. *)
Theorem GetMissingBlocks_empty_panics pm (peerID : PeerID) peer :
  GetPeer pm peerID = Some peer →
  GetMissingBlocks pm peerID [] = ([], Panics "slice bounds out of range").
Proof. intros Hp. unfold GetMissingBlocks. by rewrite Hp. Qed.

Lemma GetMissingBlocks_empty_panics_witness :
  GetMissingBlocks testdata.pm "peerA" [] = ([], Panics "slice bounds out of range").
Proof.
  apply (GetMissingBlocks_empty_panics testdata.pm "peerA" testdata.peerA).
  reflexivity.
Defined.

(** C6, as the code has it: [AuthenticateMessage] answers [true] for
    every message, also for one whose public key does not even parse, which
    [VerifyData] rejects whatever is signed. *)
Theorem AuthenticateMessage_accepts_all `{Crypto} ps (message : pbMessage)
    (data : MessageData) :
  AuthenticateMessage ps message data = true
  ∧ (UnmarshalPublicKey (md_NodePubKey data) = None →
     ∀ (bin : list byte) (peerID : PeerID),
       VerifyData bin (md_Sign data) peerID (md_NodePubKey data) = false).
Proof.
  split; [done|]. intros Hkey bin peerID. unfold VerifyData. by rewrite Hkey.
Qed.

Lemma AuthenticateMessage_accepts_all_witness :
  @AuthenticateMessage testdata.no_keys testdata.pm (NewBlockNotice [x01] 1)
    (mkMessageData "peerA" [] []) = true
  ∧ @AuthenticateMessage_unreached testdata.no_keys (NewBlockNotice [x01] 1)
      (mkMessageData "peerA" [] []) = false.
Proof.
  destruct (@AuthenticateMessage_accepts_all testdata.no_keys testdata.pm
              (NewBlockNotice [x01] 1) (mkMessageData "peerA" [] []))
    as [Htrue Hverify].
  split; [exact Htrue|].
  unfold AuthenticateMessage_unreached. simpl. by apply Hverify.
Defined.

End p2p_facts.

(** ** The notice cache *)

Section dedup_facts.
Import p2p.
Context `{iServ : ActorService}.

Implicit Types (ps : peerManager) (c : lruCache).

Lemma lru_Contains_true c (key : string) :
  lru_Contains c key = true ↔ key ∈ (lru_items c).*1.
Proof. unfold lru_Contains. by rewrite bool_decide_eq_true. Qed.

Lemma lru_Contains_lookup c (key : string) (i : nat) :
  (lru_items c).*1 !! i = Some key → lru_Contains c key = true.
Proof. intros Hi. apply lru_Contains_true. by eapply list_elem_of_lookup_2. Qed.

Lemma lru_ContainsOrAdd_size c (key : string) (value : list byte) :
  lru_size (lru_ContainsOrAdd c key value).1 = lru_size c.
Proof.
  unfold lru_ContainsOrAdd, lru_Add.
  destruct (lru_Contains c key); [done|].
  by destruct (_ <? _)%nat.
Qed.

(** A key that was not there is at the front afterwards. *)
Lemma lru_ContainsOrAdd_miss c (key : string) (value : list byte) :
  lru_Contains c key = false →
  (0 < lru_size c)%nat →
  (lru_ContainsOrAdd c key value).2.1 = false
  ∧ (lru_items (lru_ContainsOrAdd c key value).1).*1 !! 0%nat = Some key.
Proof.
  intros Hmiss Hsize. unfold lru_ContainsOrAdd, lru_Add. rewrite Hmiss.
  destruct (Nat.ltb_spec (lru_size c) (length ((key, value) :: lru_items c)))
    as [Hfull|Hroom]; simpl; [|done].
  split; [done|].
  destruct (lru_items c) as [|kv items]; [simpl in Hfull; lia|done].
Qed.

(** Another key moves an entry back by at most one place, and not out of
    the cache while there is room behind it. *)
Lemma lru_ContainsOrAdd_keeps c (key key' : string) (value' : list byte) (i : nat) :
  (lru_items c).*1 !! i = Some key →
  (S i < lru_size c)%nat →
  ∃ j, (j ≤ S i)%nat
       ∧ (lru_items (lru_ContainsOrAdd c key' value').1).*1 !! j = Some key.
Proof.
  intros Hi Hroom. unfold lru_ContainsOrAdd, lru_Add.
  destruct (lru_Contains c key'); [exists i; split; [lia|done]|].
  exists (S i). split; [done|].
  destruct (Nat.ltb_spec (lru_size c) (length ((key', value') :: lru_items c)))
    as [Hfull|_]; simpl; [|done].
  apply lookup_lt_Some in Hi as Hlen. rewrite length_fmap in Hlen.
  simpl in Hfull.
  change ((removelast ((key', value') :: lru_items c)).*1 !! S i = Some key).
  rewrite removelast_firstn_len. simpl length. simpl Init.Nat.pred.
  rewrite fmap_take, lookup_take_lt by lia. done.
Qed.

Lemma HandleNewBlockNotice_hit ps (peerID : PeerID) (b64hash : string)
    (hash : list byte) :
  lru_Contains (invCache ps) b64hash = true →
  HandleNewBlockNotice ps peerID b64hash hash = (ps, []).
Proof.
  intros Hhit. unfold HandleNewBlockNotice, lru_ContainsOrAdd. rewrite Hhit.
  by destruct ps.
Qed.

Lemma HandleNewBlockNotice_cache ps (peerID : PeerID) (b64hash : string)
    (hash : list byte) :
  invCache (HandleNewBlockNotice ps peerID b64hash hash).1
  = (lru_ContainsOrAdd (invCache ps) b64hash hash).1.
Proof.
  unfold HandleNewBlockNotice.
  destruct (lru_ContainsOrAdd _ _ _) as [cache [[|] evicted]]; [done|].
  destruct (CallRequest _ _) as [err| |[e|]]; done.
Qed.

Lemma HandleNewBlockNotice_miss ps (peerID : PeerID) (b64hash : string)
    (hash : list byte) :
  lru_Contains (invCache ps) b64hash = false →
  (0 < lru_size (invCache ps))%nat →
  (HandleNewBlockNotice ps peerID b64hash hash).2
  = EvCallRequest ChainSvc (GetBlock hash)
    :: match CallRequest ChainSvc (GetBlock hash) with
       | GetBlockRsp (Some _) =>
           [EvSendRequest P2PSvc (GetBlockInfos peerID [hash])]
       | _ => []
       end.
Proof.
  intros Hmiss Hsize.
  destruct (lru_ContainsOrAdd_miss _ _ hash Hmiss Hsize) as [Hok _].
  unfold HandleNewBlockNotice.
  destruct (lru_ContainsOrAdd _ _ _) as [cache [ok evicted]].
  simpl in Hok. subst ok.
  destruct (CallRequest _ _) as [err| |[e|]]; done.
Qed.

(** A hash at place [i] of the cache is still cached after further
    notices, as long as their number leaves it room. *)
Lemma HandleNewBlockNotices_keeps (others : list (PeerID * string * list byte)) :
  ∀ ps (key : string) (i : nat),
    (lru_items (invCache ps)).*1 !! i = Some key →
    (i + length others < lru_size (invCache ps))%nat →
    lru_Contains (invCache (HandleNewBlockNotices ps others).1) key = true.
Proof.
  induction others as [|[[peerID b64hash] hash] others IH]; intros ps key i Hi Hroom.
  - simpl. by eapply lru_Contains_lookup.
  - simpl in Hroom |- *.
    pose proof (HandleNewBlockNotice_cache ps peerID b64hash hash) as Hcache.
    destruct (HandleNewBlockNotice ps peerID b64hash hash) as [ps1 ev1].
    simpl in Hcache.
    destruct (lru_ContainsOrAdd_keeps (invCache ps) key b64hash hash i Hi)
      as (j & Hj & Hkey); [lia|].
    rewrite <- Hcache in Hkey.
    specialize (IH ps1 key j Hkey).
    destruct (HandleNewBlockNotices ps1 others) as [ps2 ev2]. simpl in *.
    apply IH. rewrite Hcache, lru_ContainsOrAdd_size. lia.
Qed.

(** C8.  With the cache at its capacity of 100 and a block hash that is
    not in it: the first notice of the hash makes one [GetBlock] request to
    the chain service and, when the answer is that the block is not found,
    one [GetBlockInfos] request to the peer the notice came from; the hash
    is then cached, and stays so over up to 99 further notices; a second
    notice of the hash, from whatever peer, is dropped without a request
    and changes nothing. *)
Theorem HandleNewBlockNotice_dedup ps (peerA peerB : PeerID) (b64hash : string)
    (hashA hashB : list byte) (others : list (PeerID * string * list byte)) :
  lru_size (invCache ps) = DefaultGlobalInvCacheSize →
  lru_Contains (invCache ps) b64hash = false →
  (length others < DefaultGlobalInvCacheSize)%nat →
  let first := HandleNewBlockNotice ps peerA b64hash hashA in
  let between := HandleNewBlockNotices first.1 others in
  let second := HandleNewBlockNotice between.1 peerB b64hash hashB in
  filter (λ ev, is_GetBlock ev = true) (first.2 ++ second.2)
    = [EvCallRequest ChainSvc (GetBlock hashA)]
  ∧ filter (λ ev, is_GetBlockInfos ev = true) (first.2 ++ second.2)
    = match CallRequest ChainSvc (GetBlock hashA) with
      | GetBlockRsp (Some _) => [EvSendRequest P2PSvc (GetBlockInfos peerA [hashA])]
      | _ => []
      end
  ∧ lru_Contains (invCache first.1) b64hash = true
  ∧ second = (between.1, []).
Proof.
  intros Hsize Hmiss Hothers first between second.
  assert (0 < lru_size (invCache ps))%nat as Hpos
    by (rewrite Hsize; unfold DefaultGlobalInvCacheSize; lia).
  pose proof (HandleNewBlockNotice_miss ps peerA b64hash hashA Hmiss Hpos) as Hev.
  pose proof (HandleNewBlockNotice_cache ps peerA b64hash hashA) as Hcache.
  destruct (lru_ContainsOrAdd_miss _ _ hashA Hmiss Hpos) as [_ Hfront].
  rewrite <- Hcache in Hfront. fold first in Hev, Hcache, Hfront.
  assert (lru_Contains (invCache between.1) b64hash = true) as Hkept.
  { apply (HandleNewBlockNotices_keeps others first.1 b64hash 0 Hfront).
    rewrite Hcache, lru_ContainsOrAdd_size, Hsize. simpl. lia. }
  assert (second = (between.1, [])) as Hsecond
    by by apply HandleNewBlockNotice_hit.
  rewrite Hsecond, Hev. simpl. rewrite app_nil_r.
  repeat split; [| |by eapply lru_Contains_lookup].
  - by destruct (CallRequest _ _) as [err| |[e|]].
  - by destruct (CallRequest _ _) as [err| |[e|]].
Qed.

End dedup_facts.

(** A notice from [peerA], three notices of other blocks, and the same
    notice again from [peerB], at a chain service that has no block. *)
Lemma HandleNewBlockNotice_dedup_witness :
  let first :=
    @p2p.HandleNewBlockNotice testdata.chain_without_blocks testdata.pm
      "peerA" "aGFzaA==" [x01] in
  let between :=
    @p2p.HandleNewBlockNotices testdata.chain_without_blocks first.1
      [("peerB", "b1", [x02]); ("peerA", "b2", [x03]); ("peerA", "b1", [x02])] in
  let second :=
    @p2p.HandleNewBlockNotice testdata.chain_without_blocks between.1
      "peerB" "aGFzaA==" [x01] in
  filter (λ ev, p2p.is_GetBlockInfos ev = true) (first.2 ++ second.2)
    = [p2p.EvSendRequest p2p.P2PSvc (p2p.GetBlockInfos "peerA" [[x01]])]
  ∧ second = (between.1, []).
Proof.
  intros first between second.
  destruct (@HandleNewBlockNotice_dedup testdata.chain_without_blocks testdata.pm
              "peerA" "peerB" "aGFzaA==" [x01] [x01]
              [("peerB", "b1", [x02]); ("peerA", "b2", [x03]); ("peerA", "b1", [x02])])
    as (_ & Hinfos & _ & Hsecond).
  - reflexivity.
  - reflexivity.
  - simpl. unfold p2p.DefaultGlobalInvCacheSize. lia.
  - split; [exact Hinfos|exact Hsecond].
Defined.

(** ** Block states and account reads *)

Lemma PutAccounts_snoc (bs : BlockState)
    (puts : list (AccountID * option State * option State))
    (p : AccountID * option State * option State) :
  PutAccounts bs (puts ++ [p]) = PutAccount (PutAccounts bs puts) p.1.1 p.1.2 p.2.
Proof. unfold PutAccounts. by rewrite foldl_app. Qed.

Lemma PutAccount_lookup (bs : BlockState) (aid k : AccountID)
    (state change : option State) :
  bs_accounts (PutAccount bs aid state change) !! k =
    if decide (k = aid) then
      Some (match bs_accounts bs !! aid with
            | Some prev => mkStateEntry change (se_Undo prev)
            | None => NewStateEntry change state
            end)
    else bs_accounts bs !! k.
Proof.
  unfold PutAccount.
  destruct (bs_accounts bs !! aid) as [prev|] eqn:Hprev; simpl;
    destruct (decide (k = aid)) as [->|Hne];
    by rewrite ?lookup_insert_eq, ?lookup_insert_ne.
Qed.

Lemma PutAccount_BlockInfo (bs : BlockState) (aid : AccountID)
    (state change : option State) :
  bs_BlockInfo (PutAccount bs aid state change) = bs_BlockInfo bs.
Proof. unfold PutAccount. by destruct (bs_accounts bs !! aid). Qed.

(** X1.  The entry a block state holds for an account after a sequence of
    [PutAccount] calls, when it held none before: the post state is the
    change of the last call for the account, the pre state is the state
    passed to the first one (nil when that state is empty), and calls in
    between leave no trace; an account with no call has no entry.  The
    block header is not touched. *)
Theorem PutAccounts_first_undo_last_state (bs : BlockState) (aid : AccountID)
    (puts : list (AccountID * option State * option State)) :
  bs_accounts bs !! aid = None →
  bs_accounts (PutAccounts bs puts) !! aid =
    (let mine := filter (λ p, p.1.1 = aid) puts in
     match head mine, last mine with
     | Some first, Some final =>
         Some (mkStateEntry final.2 (se_Undo (NewStateEntry first.2 first.1.2)))
     | _, _ => None
     end)
  ∧ bs_BlockInfo (PutAccounts bs puts) = bs_BlockInfo bs.
Proof.
  intros Hnew. induction puts as [|p puts [IH IHinfo]] using rev_ind;
    [by split|].
  rewrite PutAccounts_snoc, PutAccount_BlockInfo. split; [|done].
  rewrite PutAccount_lookup, filter_app. simpl.
  rewrite filter_cons, filter_nil.
  destruct (decide (aid = p.1.1)) as [->|Hne].
  - rewrite decide_True by done. rewrite IH, last_snoc.
    destruct (filter _ puts) as [|q mine]; simpl; [done|].
    destruct (last (q :: mine)) eqn:Hlast; [done|].
    by apply last_None in Hlast.
  - rewrite decide_False by done. by rewrite app_nil_r.
Qed.

Lemma PutAccounts_first_undo_last_state_witness :
  bs_accounts
    (PutAccounts (NewBlockState 1 testdata.h1 testdata.hG)
       [(testdata.A1, Some NewState, Some (mkState 0 100));
        (testdata.A2, Some (mkState 1 5), Some (mkState 2 4));
        (testdata.A1, Some (mkState 0 100), Some (mkState 0 70))])
    !! testdata.A1
  = Some (mkStateEntry (Some (mkState 0 70)) None).
Proof.
  apply (PutAccounts_first_undo_last_state
           (NewBlockState 1 testdata.h1 testdata.hG) testdata.A1
           [(testdata.A1, Some NewState, Some (mkState 0 100));
            (testdata.A2, Some (mkState 1 5), Some (mkState 2 4));
            (testdata.A1, Some (mkState 0 100), Some (mkState 0 70))]).
  reflexivity.
Defined.

(** X2.  No block state built by [PutAccount] calls from [NewBlockState]
    holds a pointer to an empty state as [Undo]: the pre state of an
    entry is nil or a state that is not empty. *)
Theorem PutAccounts_undo_not_empty (blockNo : BlockNo) (blockHash prevHash : BlockID)
    (puts : list (AccountID * option State * option State))
    (aid : AccountID) (e : StateEntry) (st : State) :
  bs_accounts (PutAccounts (NewBlockState blockNo blockHash prevHash) puts) !! aid
    = Some e →
  se_Undo e = Some st →
  IsEmpty st = false.
Proof.
  revert e. induction puts as [|p puts IH] using rev_ind; intros e.
  - unfold PutAccounts, NewBlockState. simpl. by rewrite lookup_empty.
  - rewrite PutAccounts_snoc, PutAccount_lookup.
    destruct (decide (aid = p.1.1)) as [->|Hne]; [|by apply IH].
    destruct (bs_accounts _ !! p.1.1) as [prev|] eqn:Hprev.
    + intros [= <-]. simpl. by apply IH.
    + intros [= <-]. unfold NewStateEntry. simpl.
      destruct p.1.2 as [u|]; [|done].
      destruct (IsEmpty u) eqn:Hu; [done|]. by intros [= <-].
Qed.

Lemma PutAccounts_undo_not_empty_witness :
  IsEmpty (mkState 1 5) = false.
Proof.
  apply (PutAccounts_undo_not_empty 1 testdata.h1 testdata.hG
           [(testdata.A2, Some (mkState 1 5), Some (mkState 2 4))]
           testdata.A2
           (mkStateEntry (Some (mkState 2 4)) (Some (mkState 1 5)))
           (mkState 1 5)).
  - vm_compute. reflexivity.
  - reflexivity.
Defined.

Section Reads_facts.
Context `{C : Collaborators}.

Implicit Types (sdb : ChainStateDB) (bs bstate : BlockState).

(** X3.  [getAccountState] of a valid account id returns the pointer held by
    the accounts map, or, for an account the map does not hold, a new
    empty state that it also puts into the map.  Nothing else of the
    engine changes, and asking again returns the same and changes
    nothing. *)
Theorem getAccountState_creates_once sdb (aid : AccountID) :
  aid ≠ emptyAccountID →
  (getAccountState sdb aid).2
    = inr (default (Some NewState) (accounts sdb !! aid))
  ∧ accounts (getAccountState sdb aid).1
    = <[aid := default (Some NewState) (accounts sdb !! aid)]> (accounts sdb)
  ∧ trie (getAccountState sdb aid).1 = trie sdb
  ∧ latest (getAccountState sdb aid).1 = latest sdb
  ∧ statedb (getAccountState sdb aid).1 = statedb sdb
  ∧ calls (getAccountState sdb aid).1 = calls sdb
  ∧ getAccountState (getAccountState sdb aid).1 aid = getAccountState sdb aid.
Proof.
  intros Hvalid. unfold getAccountState.
  destruct (decide (aid = emptyAccountID)); [done|].
  destruct (accounts sdb !! aid) as [st|] eqn:Hst; simpl.
  - rewrite Hst. repeat split; try done. by rewrite insert_id.
  - repeat split; try done. by rewrite lookup_insert_eq.
Qed.

(** X4.  A block state answers for the accounts it holds: after [PutAccount]
    of an account, [getBlockAccount] returns the changed state for it
    without touching the engine, and answers for every other account as
    before the [PutAccount]. *)
Theorem getBlockAccount_PutAccount sdb bs (aid : AccountID)
    (state change : option State) :
  aid ≠ emptyAccountID →
  getBlockAccount sdb (PutAccount bs aid state change) aid = (sdb, inr change)
  ∧ ∀ aid' : AccountID,
      aid' ≠ aid →
      getBlockAccount sdb (PutAccount bs aid state change) aid'
      = getBlockAccount sdb bs aid'.
Proof.
  intros Hvalid. unfold getBlockAccount. split.
  - destruct (decide (aid = emptyAccountID)); [done|].
    rewrite PutAccount_lookup, decide_True by done.
    by destruct (bs_accounts bs !! aid).
  - intros aid' Hne. destruct (decide (aid' = emptyAccountID)); [done|].
    by rewrite PutAccount_lookup, decide_False.
Qed.

(** The invalid account id (all zero) is refused by every read, whatever
    the block state and the accounts map hold under it, and the engine is
    left as it is. *)
Theorem invalid_account_id_refused sdb bs (e : StateEntry) (st : option State) :
  let bs' := mkBlockState (bs_BlockInfo bs) (<[emptyAccountID := e]> (bs_accounts bs)) in
  let sdb' := set_accounts sdb (<[emptyAccountID := st]> (accounts sdb)) in
  GetAccountStateClone sdb' emptyAccountID = (sdb', inl (Err ErrInvalidAccountID))
  ∧ GetBlockAccountClone sdb' bs' emptyAccountID
    = (sdb', inl (Err ErrInvalidAccountID)).
Proof.
  intros bs' sdb'.
  unfold GetAccountStateClone, GetBlockAccountClone, getBlockAccount,
    getAccountState.
  by rewrite !decide_True.
Qed.

End Reads_facts.

Lemma getAccountState_creates_once_witness :
  (getAccountState (testdata.genesis None false) testdata.A1).2
  = inr (Some NewState).
Proof.
  destruct (getAccountState_creates_once (testdata.genesis None false) testdata.A1)
    as (Hr & _).
  - vm_compute. discriminate.
  - rewrite Hr. vm_compute. reflexivity.
Defined.

Lemma getBlockAccount_PutAccount_witness :
  getBlockAccount (testdata.genesis None false)
    (PutAccount (NewBlockState 1 testdata.h1 testdata.hG) testdata.A1
       (Some NewState) (Some (mkState 0 100))) testdata.A1
  = (testdata.genesis None false, inr (Some (mkState 0 100))).
Proof.
  apply (getBlockAccount_PutAccount (testdata.genesis None false)
           (NewBlockState 1 testdata.h1 testdata.hG) testdata.A1
           (Some NewState) (Some (mkState 0 100))).
  vm_compute. discriminate.
Defined.

(** ** Apply, SetGenesis and Rollback at their edges *)

#[local] Instance bytes_lt_antisymm : AntiSymm (=) bytes_lt.
Proof.
  intros a b Hab Hba. exfalso.
  by apply (bytes_lt_irrefl a), (bytes_lt_trans a b a).
Qed.

Lemma assign_accounts_in_lookup (f : StateEntry → option State)
    (order : list (AccountID * StateEntry)) :
  NoDup order.*1 →
  ∀ (accs : gmap AccountID (option State)) (k : AccountID),
    assign_accounts_in order f accs !! k =
      match (list_to_map order : gmap AccountID StateEntry) !! k with
      | Some e => Some (f e)
      | None => accs !! k
      end.
Proof.
  unfold assign_accounts_in.
  induction order as [|[k0 e0] order IH]; intros Hnd accs k; [done|].
  rewrite fmap_cons in Hnd. apply NoDup_cons in Hnd as [Hk0 Hnd].
  simpl. rewrite (IH Hnd).
  destruct (decide (k = k0)) as [->|Hne].
  - rewrite !lookup_insert_eq.
    by rewrite (proj1 (not_elem_of_list_to_map order k0) Hk0).
  - rewrite !lookup_insert_ne by done. done.
Qed.

(** X5.  The order in which Go ranges over the account map of a block state
    does not show: whatever order the keys are collected in, the sorted
    slice [accs] of [updateTrie] is the same, and whatever order the entries
    are assigned in, the accounts map that [Apply] and [Rollback] leave is
    the same. *)
Theorem map_order_immaterial (bstate : BlockState)
    (order : list (AccountID * StateEntry)) (f : StateEntry → option State)
    (accs : gmap AccountID (option State)) :
  order ≡ₚ map_to_list (bs_accounts bstate) →
  sort_Slice bytes_less order.*1 = sorted_accounts bstate
  ∧ assign_accounts_in order f accs = assign_accounts f (bs_accounts bstate) accs.
Proof.
  intros Hperm.
  assert (NoDup order.*1) as Hnd
    by (rewrite Hperm; apply NoDup_fst_map_to_list).
  split.
  - apply (StronglySorted_unique bytes_lt).
    + by apply sort_bytes_sorted.
    + apply sort_bytes_sorted, NoDup_fst_map_to_list.
    + unfold sorted_accounts. by rewrite !sort_Slice_perm, Hperm.
  - apply map_eq. intros k.
    rewrite assign_accounts_in_lookup, assign_accounts_lookup by done.
    by rewrite (list_to_map_proper _ _ Hnd Hperm), list_to_map_to_list.
Qed.

Lemma map_order_immaterial_witness :
  sort_Slice bytes_less [testdata.A2; testdata.A1] = sorted_accounts testdata.bs1.
Proof.
  apply (map_order_immaterial testdata.bs1
           [(testdata.A2, mkStateEntry (Some (mkState 0 50)) None);
            (testdata.A1, mkStateEntry (Some (mkState 0 100)) None)]
           se_State ∅).
  apply NoDup_Permutation.
  - repeat constructor; vm_compute; intros H; inversion H as [|? ? ? H']; inversion H'.
  - apply NoDup_map_to_list.
  - intros [k e]. rewrite elem_of_map_to_list.
    rewrite !elem_of_cons, elem_of_nil.
    split.
    + intros [[= -> ->]|[[= -> ->]|[]]]; vm_compute; reflexivity.
    + intros Hk.
      destruct (decide (k = testdata.A1)) as [->|H1].
      { right. left. vm_compute in Hk. by injection Hk as <-. }
      destruct (decide (k = testdata.A2)) as [->|H2].
      { left. vm_compute in Hk. by injection Hk as <-. }
      exfalso. unfold testdata.bs1 in Hk.
      rewrite !PutAccount_lookup in Hk.
      rewrite !decide_False in Hk by done.
      unfold NewBlockState in Hk. simpl in Hk. by rewrite lookup_empty in Hk.
Defined.

Section Apply_facts.
Context `{C : Collaborators}.

Implicit Types (sdb : ChainStateDB) (bs bstate : BlockState).

Lemma Apply_Nil_store sdb bstate :
  (Apply sdb bstate).2 = Nil →
  stateAccounts (statedb (Apply sdb bstate).1) = accounts (Apply sdb bstate).1
  ∧ stateLatest (statedb (Apply sdb bstate).1) = Some (bs_BlockInfo bstate).
Proof.
  destruct (Apply_mismatch_dec sdb bstate) as [Hbad|Hok].
  { by destruct (Apply_rejected _ _ Hbad) as [e ->]. }
  rewrite (Apply_checked _ _ Hok). unfold Apply_body.
  set (sdb1 := set_accounts _ _).
  destruct (updateTrie_frame sdb1 bstate false) as (Ha & _ & Hs).
  destruct (updateTrie sdb1 bstate false) as [sdb2 r]. simpl in Ha, Hs.
  destruct r as [|e|msg]; [|done|done].
  unfold saveStateDB, store_save_state. simpl.
  by destruct (ioFailure (statedb sdb2)).
Qed.

(** X6.  What a successful [Apply] leaves: the block is the latest one, its
    block state can be loaded back under its hash, the stored snapshot is
    the accounts map and the latest pointer, every account of the block
    with a post state reads as that post state, and every other account is
    as before. *)
Theorem Apply_success_reads sdb bstate :
  (Apply sdb bstate).2 = Nil →
  latest (Apply sdb bstate).1 = bs_BlockInfo bstate
  ∧ loadBlockState (Apply sdb bstate).1 (BlockHash (bs_BlockInfo bstate))
    = inr bstate
  ∧ stateAccounts (statedb (Apply sdb bstate).1) = accounts (Apply sdb bstate).1
  ∧ stateLatest (statedb (Apply sdb bstate).1) = Some (bs_BlockInfo bstate)
  ∧ (∀ (aid : AccountID) (e : StateEntry) (st : State),
       bs_accounts bstate !! aid = Some e →
       se_State e = Some st →
       aid ≠ emptyAccountID →
       GetAccountStateClone (Apply sdb bstate).1 aid
       = ((Apply sdb bstate).1, inr st))
  ∧ (∀ aid : AccountID,
       bs_accounts bstate !! aid = None →
       accounts (Apply sdb bstate).1 !! aid = accounts sdb !! aid).
Proof.
  intros Hok.
  destruct (Apply_Nil_inv _ _ Hok) as (_ & Hl & Ha & Hio & Hlog).
  destruct (Apply_Nil_store _ _ Hok) as (Hsa & Hsl).
  repeat split; try done.
  - by apply loadBlockState_logged.
  - intros aid e st He Hst Hvalid.
    unfold GetAccountStateClone, getAccountState.
    destruct (decide (aid = emptyAccountID)); [done|].
    by rewrite Ha, assign_accounts_lookup, He, Hst.
  - intros aid Hnone. by rewrite Ha, assign_accounts_lookup, Hnone.
Qed.

(** X7.  A block state that was applied is refused when applied again: the
    height check fails, and the engine stays as the first [Apply] left
    it. *)
Theorem Apply_again_refused sdb bstate :
  (Apply sdb bstate).2 = Nil →
  Apply (Apply sdb bstate).1 bstate
  = ((Apply sdb bstate).1,
     Err (ErrApplyBlockNo (BlockNo_ (bs_BlockInfo bstate))
            (BlockNo_ (bs_BlockInfo bstate)))).
Proof.
  intros Hok.
  destruct (Apply_Nil_inv _ _ Hok) as (Hn & Hl & _).
  set (sdb1 := (Apply sdb bstate).1) in *.
  unfold Apply. rewrite Hl.
  assert (0 ≤ BlockNo_ (bs_BlockInfo bstate) < 2 ^ 64) as Hrange.
  { rewrite <- Hn. unfold uint64_wrap. apply Z.mod_pos_bound. lia. }
  assert (uint64_wrap (BlockNo_ (bs_BlockInfo bstate) + 1)
          ≠ BlockNo_ (bs_BlockInfo bstate)) as Hne.
  { unfold uint64_wrap.
    destruct (decide (BlockNo_ (bs_BlockInfo bstate) + 1 < 2 ^ 64)).
    - rewrite Z.mod_small by lia. lia.
    - replace (BlockNo_ (bs_BlockInfo bstate) + 1) with (2 ^ 64) by lia.
      rewrite Z.mod_same by lia. lia. }
  by destruct (Z.eqb_spec (uint64_wrap (BlockNo_ (bs_BlockInfo bstate) + 1))
                 (BlockNo_ (bs_BlockInfo bstate))).
Qed.

(** X8.  A block state without accounts that passes the checks, over a store
    that works, is applied without a call into the trie: the accounts map
    and the trie stay as they are and the block becomes the latest one. *)
Theorem Apply_empty_block sdb bstate :
  bs_accounts bstate = ∅ →
  ¬ Apply_mismatch sdb bstate →
  ioFailure (statedb sdb) = false →
  (Apply sdb bstate).2 = Nil
  ∧ accounts (Apply sdb bstate).1 = accounts sdb
  ∧ trie (Apply sdb bstate).1 = trie sdb
  ∧ calls (Apply sdb bstate).1 = calls sdb
  ∧ latest (Apply sdb bstate).1 = bs_BlockInfo bstate.
Proof.
  intros Hempty Hok Hio. rewrite (Apply_checked _ _ Hok). unfold Apply_body.
  rewrite updateTrie_unfold, decide_True by done.
  rewrite Hempty, assign_accounts_empty.
  unfold saveStateDB, store_save_state, saveBlockState, store_save_block.
  simpl. rewrite Hio. simpl. by rewrite ?Hio.
Qed.

(** X9.  [SetGenesis] over a store that works: the latest block is block 0
    with the given hash and no previous hash, the empty block state of the
    genesis block can be loaded under that hash, the accounts map and the
    trie are not reset, every [Rollback] is refused, and a block state of
    number 1 on top of the genesis hash passes the checks of [Apply]. *)
Theorem SetGenesis_start sdb (genesisHash : BlockID) :
  ioFailure (statedb sdb) = false →
  (SetGenesis sdb genesisHash).2 = Nil
  ∧ latest (SetGenesis sdb genesisHash).1 = mkBlockInfo 0 genesisHash emptyBlockID
  ∧ loadBlockState (SetGenesis sdb genesisHash).1 genesisHash
    = inr (NewBlockState 0 genesisHash emptyBlockID)
  ∧ accounts (SetGenesis sdb genesisHash).1 = accounts sdb
  ∧ trie (SetGenesis sdb genesisHash).1 = trie sdb
  ∧ (∀ (fuel : nat) (blockNo : BlockNo),
       0 ≤ blockNo →
       Rollback fuel (SetGenesis sdb genesisHash).1 blockNo
       = Some ((SetGenesis sdb genesisHash).1, Err ErrRollbackBlockNo))
  ∧ (∀ bstate,
       BlockNo_ (bs_BlockInfo bstate) = 1 →
       PrevHash (bs_BlockInfo bstate) = genesisHash →
       ¬ Apply_mismatch (SetGenesis sdb genesisHash).1 bstate).
Proof.
  intros Hio.
  unfold SetGenesis, saveStateDB, store_save_state, saveBlockState,
    store_save_block. simpl. rewrite Hio. simpl. rewrite ?Hio. simpl.
  repeat split; try done.
  - unfold loadBlockState, store_load_block. simpl.
    by rewrite lookup_insert_eq.
  - intros fuel blockNo Hno. unfold Rollback. simpl.
    by destruct (Z.leb_spec 0 blockNo); [|lia].
  - intros bstate Hno Hprev [Hbad|Hbad]; simpl in Hbad.
    + rewrite Hno in Hbad. by apply Hbad.
    + by rewrite Hprev in Hbad.
Qed.

(** X10.  When the block state of the latest block cannot be loaded,
    [Rollback] to a lower block returns the error of the load and leaves
    the engine as it is. *)
Theorem Rollback_load_failure sdb (blockNo : BlockNo) (e : error) :
  blockNo < BlockNo_ (latest sdb) →
  loadBlockState sdb (BlockHash (latest sdb)) = inl e →
  ∀ fuel : nat, Rollback (S fuel) sdb blockNo = Some (sdb, Err e).
Proof.
  intros Hlt Hload fuel. unfold Rollback.
  destruct (Z.leb_spec (BlockNo_ (latest sdb)) blockNo); [lia|].
  rewrite Rollback_loop_S.
  destruct (Z.geb_spec (BlockNo_ (latest sdb)) blockNo); [|lia].
  by rewrite Hload.
Qed.

(** X11.  [Rollback] is not undone on failure: when the trie refuses the undo
    update of the latest block, [Rollback] returns the trie's error with
    the accounts of that block already set to their pre states, [latest]
    still at that block, and nothing written to the store. *)
Theorem Rollback_undo_failure sdb (blockNo : BlockNo) bs
    (vals : list (list byte)) (e : error) :
  blockNo < BlockNo_ (latest sdb) →
  loadBlockState sdb (BlockHash (latest sdb)) = inr bs →
  bs_accounts bs ≠ ∅ →
  update_vals bs true = Some vals →
  (trie_Update (trie sdb) (update_keys bs) vals).2 = Some e →
  ∀ fuel : nat,
    ∃ sdb',
      Rollback (S fuel) sdb blockNo = Some (sdb', Err e)
      ∧ accounts sdb' = assign_accounts se_Undo (bs_accounts bs) (accounts sdb)
      ∧ latest sdb' = bs_BlockInfo bs
      ∧ statedb sdb' = statedb sdb.
Proof.
  intros Hlt Hload Hne Hvals Herr fuel. unfold Rollback.
  destruct (Z.leb_spec (BlockNo_ (latest sdb)) blockNo); [lia|].
  rewrite Rollback_loop_S.
  destruct (Z.geb_spec (BlockNo_ (latest sdb)) blockNo); [|lia].
  rewrite Hload.
  destruct (Z.eqb_spec (BlockNo_ (latest sdb)) blockNo); [lia|].
  unfold revertTrie. rewrite updateTrie_unfold, decide_False by done.
  unfold update_vals in Hvals. rewrite Hvals. simpl. rewrite Herr.
  eexists. split; [done|]. done.
Qed.

End Apply_facts.

Lemma Apply_success_reads_witness :
  GetAccountStateClone (testdata.at_block1 None) testdata.A1
  = (testdata.at_block1 None, inr (mkState 0 100)).
Proof.
  destruct (Apply_success_reads (testdata.genesis None false) testdata.bs1)
    as (_ & _ & _ & _ & Hread & _).
  - vm_compute. reflexivity.
  - apply (Hread testdata.A1 (mkStateEntry (Some (mkState 0 100)) None)).
    + vm_compute. reflexivity.
    + reflexivity.
    + vm_compute. discriminate.
Defined.

Lemma Apply_again_refused_witness :
  Apply (testdata.at_block1 None) testdata.bs1
  = (testdata.at_block1 None, Err (ErrApplyBlockNo 1 1)).
Proof.
  apply (Apply_again_refused (testdata.genesis None false) testdata.bs1).
  vm_compute. reflexivity.
Defined.

Lemma Apply_empty_block_witness :
  (Apply (testdata.genesis None false) (NewBlockState 1 testdata.h1 testdata.hG)).2
  = Nil.
Proof.
  apply (Apply_empty_block (testdata.genesis None false)
           (NewBlockState 1 testdata.h1 testdata.hG)).
  - reflexivity.
  - intros [H|H]; vm_compute in H; by apply H.
  - vm_compute. reflexivity.
Defined.

Lemma SetGenesis_start_witness :
  Rollback 1 (testdata.genesis None false) 0
  = Some (testdata.genesis None false, Err ErrRollbackBlockNo).
Proof.
  destruct (@SetGenesis_start (memCollaborators None false)
              (@mkChainStateDB (memCollaborators None false) ∅ (mkMemTrie ∅)
                 (mkBlockInfo 0 emptyBlockID emptyBlockID)
                 (mkStore ∅ ∅ None false) [])
              testdata.hG eq_refl) as (_ & _ & _ & _ & _ & Hroll & _).
  apply (Hroll 1%nat 0). lia.
Defined.

(** An engine at block 1 whose store has failed since. *)
Lemma Rollback_load_failure_witness :
  let sdb := @mkChainStateDB (memCollaborators None false) ∅ (mkMemTrie ∅)
               (mkBlockInfo 1 testdata.h1 testdata.hG)
               (mkStore ∅ ∅ None true) [] in
  Rollback 1 sdb 0 = Some (sdb, Err (ErrStore "i/o failure")).
Proof.
  intros sdb.
  apply (Rollback_load_failure sdb 0 (ErrStore "i/o failure")).
  - simpl. lia.
  - reflexivity.
Defined.

(** The engine at block 2 moved onto a trie that fails. *)
Lemma Rollback_undo_failure_witness :
  let sdb := @mkChainStateDB (memCollaborators None true)
               (accounts (testdata.at_block2 None)) (mkMemTrie ∅)
               (latest (testdata.at_block2 None))
               (statedb (testdata.at_block2 None)) [] in
  ∃ sdb', Rollback 1 sdb 1 = Some (sdb', Err (ErrTrie "kv store failure"))
          ∧ latest sdb' = bs_BlockInfo testdata.bs2.
Proof.
  intros sdb.
  destruct (Rollback_undo_failure sdb 1 testdata.bs2
              [le_bytes 8 0 ++ le_bytes 8 100] (ErrTrie "kv store failure"))
    with (fuel := 0%nat) as (sdb' & Hrun & _ & Hl & _).
  - vm_compute. reflexivity.
  - vm_compute. reflexivity.
  - intros H.
    apply (f_equal (λ m : gmap AccountID StateEntry, m !! testdata.A1)) in H.
    vm_compute in H. discriminate.
  - vm_compute. reflexivity.
  - reflexivity.
  - exists sdb'. split; assumption.
Defined.

Section Roundtrip_more.
Context `{C : Collaborators}.

(** X12.  [Apply] followed by [Rollback] to the block before restores
    the accounts map, for a block state each of whose entries carries as
    [Undo] the pointer the accounts map held for the account: the rollback
    ends for every fuel from 2 on, whatever the trie answers to the undo,
    and the accounts map is the one from before [Apply]. *)
Theorem Apply_Rollback_roundtrip_accounts (sdb : ChainStateDB) (bstate : BlockState) :
  (∀ k e, bs_accounts bstate !! k = Some e → accounts sdb !! k = Some (se_Undo e)) →
  0 ≤ BlockNo_ (latest sdb) < 2 ^ 64 - 1 →
  (Apply sdb bstate).2 = Nil →
  ∀ fuel : nat, (2 ≤ fuel)%nat →
  ∃ sdb' (r : result),
    Rollback fuel (Apply sdb bstate).1 (BlockNo_ (bs_BlockInfo bstate) - 1)
      = Some (sdb', r)
    ∧ accounts sdb' = accounts sdb
    ∧ ∀ aid : AccountID,
        (GetAccountStateClone sdb' aid).2 = (GetAccountStateClone sdb aid).2.
Proof.
  intros Hpre Hno Hok fuel Hfuel.
  destruct (Apply_Rollback_restores_accounts sdb bstate Hpre Hno Hok fuel Hfuel)
    as (sdb' & r & Hrun & Ha).
  exists sdb', r. repeat split; [done..|].
  intros aid. unfold GetAccountStateClone, getAccountState. rewrite Ha.
  destruct (decide _); [done|]. by destruct (accounts sdb !! aid) as [[st|]|].
Qed.

End Roundtrip_more.

(** Block 2 changes [A1] from the state it has at block 1: applying it
    and rolling back to block 1 restores the accounts map. *)
Lemma Apply_Rollback_roundtrip_accounts_witness :
  ∃ sdb' (r : result),
    Rollback 2 (Apply (testdata.at_block1 None) testdata.bs2).1
      (BlockNo_ (bs_BlockInfo testdata.bs2) - 1) = Some (sdb', r)
    ∧ accounts sdb' = accounts (testdata.at_block1 None)
    ∧ ∀ aid : AccountID,
        (GetAccountStateClone sdb' aid).2
        = (GetAccountStateClone (testdata.at_block1 None) aid).2.
Proof.
  apply (Apply_Rollback_roundtrip_accounts (testdata.at_block1 None) testdata.bs2).
  - intros k e. unfold testdata.bs2. rewrite PutAccount_lookup.
    destruct (decide (k = testdata.A1)) as [->|Hne].
    + intros [= <-]. vm_compute. reflexivity.
    + unfold NewBlockState. simpl. by rewrite lookup_empty.
  - vm_compute. split; [discriminate|reflexivity].
  - vm_compute. reflexivity.
  - lia.
Defined.

(** ** Requests, the peer table and data verification *)

Section p2p_more_facts.
Import p2p.

Implicit Types (pm ps : peerManager) (peer : RemotePeer).

(** X13.  [NotifyNewBlock] sends the notice of the block, unsigned and under
    the protocol id [newBlockNotice], to the peers of the snapshot that are
    not nil and are [RUNNING], in the order of the snapshot, and to no one
    else; it always returns true. *)
Theorem NotifyNewBlock_sends_to_running pm (Hash : list byte) (no : Z) :
  (NotifyNewBlock pm Hash no).1
  = map (λ peer, EvSendMessage (Some peer)
                   (pbBroadcastOrder false newBlockNotice (NewBlockNotice Hash no)))
      (filter (λ peer, state peer = RUNNING) (omap id (GetPeers pm)))
  ∧ (NotifyNewBlock pm Hash no).2 = Returns true.
Proof.
  split; [|done]. unfold NotifyNewBlock. simpl.
  induction (GetPeers pm) as [|[peer|] l IH]; simpl; [done| |done].
  rewrite filter_cons.
  destruct (decide (state peer = RUNNING)); simpl; by rewrite IH.
Qed.

(** X14.  For a peer that is not registered the request helpers send nothing
    and return false, whatever they are asked to request. *)
Theorem requests_to_unknown_peer pm (peerID : PeerID)
    (hashes : list (list byte)) :
  GetPeer pm peerID = None →
  GetBlocks pm peerID hashes = ([], Returns false)
  ∧ GetMissingBlocks pm peerID hashes = ([], Returns false)
  ∧ GetTXs pm peerID hashes = ([], Returns false).
Proof.
  intros Hp. unfold GetBlocks, GetMissingBlocks, GetTXs. by rewrite Hp.
Qed.

Lemma requests_to_unknown_peer_witness :
  GetBlocks testdata.pm "peerC" [[x01]] = ([], Returns false)
  ∧ GetMissingBlocks testdata.pm "peerC" [[x01]] = ([], Returns false)
  ∧ GetTXs testdata.pm "peerC" [[x01]] = ([], Returns false).
Proof.
  apply (requests_to_unknown_peer testdata.pm "peerC" [[x01]]).
  reflexivity.
Defined.

(** X15.  [GetBlocks] to a registered peer sends one request that expects a
    response and carries the hashes as given, also when the list of hashes
    is empty, and returns true. *)
Theorem GetBlocks_sends pm (peerID : PeerID) peer (hashes : list (list byte)) :
  GetPeer pm peerID = Some peer →
  GetBlocks pm peerID hashes
  = ([EvSendMessage (Some peer)
        (pbRequestOrder true true getBlocksRequest (GetBlockRequest hashes))],
     Returns true).
Proof.
  intros Hp. unfold GetBlocks. by rewrite Hp, foldl_snoc_id.
Qed.

Lemma GetBlocks_sends_witness :
  GetBlocks testdata.pm "peerA" []
  = ([EvSendMessage (Some testdata.peerA)
        (pbRequestOrder true true getBlocksRequest (GetBlockRequest []))],
     Returns true).
Proof.
  apply (GetBlocks_sends testdata.pm "peerA" testdata.peerA []). reflexivity.
Defined.

(** X16.  [GetMissingBlocks] with at least one hash, to a registered peer,
    sends one request whose stop hash is the first hash given and whose
    hashes are the rest, and returns true. *)
Theorem GetMissingBlocks_first_is_stop pm (peerID : PeerID) peer
    (hashes : list (list byte)) :
  GetPeer pm peerID = Some peer →
  hashes ≠ [] →
  ∃ (stop : list byte) (rest : list (list byte)),
    hashes = stop :: rest
    ∧ GetMissingBlocks pm peerID hashes
      = ([EvSendMessage (Some peer)
            (pbRequestOrder false true getMissingRequest
               (GetMissingRequest rest stop))],
         Returns true).
Proof.
  intros Hp Hne. destruct hashes as [|stop rest]; [done|].
  exists stop, rest. split; [done|]. by apply GetMissingBlocks_sends.
Qed.

Lemma GetMissingBlocks_first_is_stop_witness :
  ∃ (stop : list byte) (rest : list (list byte)),
    [[x01]; [x02]; [x03]] = stop :: rest
    ∧ GetMissingBlocks testdata.pm "peerA" [[x01]; [x02]; [x03]]
      = ([EvSendMessage (Some testdata.peerA)
            (pbRequestOrder false true getMissingRequest
               (GetMissingRequest rest stop))],
         Returns true).
Proof.
  apply (GetMissingBlocks_first_is_stop testdata.pm "peerA" testdata.peerA).
  - reflexivity.
  - discriminate.
Defined.

(** X17.  [GetTXs] returns true exactly when the peer is registered, the list
    of hashes is not empty and none of the hashes is empty; it then sends
    one request with all the hashes, and otherwise sends nothing. *)
Theorem GetTXs_true_iff pm (peerID : PeerID) (txHashes : list (list byte)) :
  ((GetTXs pm peerID txHashes).2 = Returns true
   ↔ is_Some (GetPeer pm peerID) ∧ txHashes ≠ [] ∧ Forall (λ hash, hash ≠ []) txHashes)
  ∧ (GetTXs pm peerID txHashes).1
    = match (GetTXs pm peerID txHashes).2 with
      | Returns true =>
          [EvSendMessage (GetPeer pm peerID)
             (pbRequestOrder true true getTXsRequest
                (GetTransactionsRequest txHashes))]
      | _ => []
      end.
Proof.
  assert (existsb (λ hash : list byte, (length hash =? 0)%nat) txHashes = false
          ↔ Forall (λ hash, hash ≠ []) txHashes) as Hall.
  { induction txHashes as [|h l IH]; simpl; [by split|].
    rewrite orb_false_iff, IH, Forall_cons.
    destruct h; simpl; split; intros [? ?]; split; done. }
  unfold GetTXs.
  destruct (GetPeer pm peerID) as [peer|]; simpl.
  2: { split; [|done]. split; [done|]. by intros [[? ?] _]. }
  destruct txHashes as [|h l]; simpl.
  { split; [|done]. split; [done|]. by intros (_ & ? & _). }
  change (existsb _ (h :: l)) with
    (existsb (λ hash : list byte, (length hash =? 0)%nat) (h :: l)) in Hall.
  simpl in Hall.
  destruct ((length h =? 0)%nat || existsb _ l) eqn:Hex; simpl.
  - split; [|done]. split; [done|]. intros (_ & _ & Hf).
    apply Hall in Hf. congruence.
  - split; [|done]. split; [|done]. intros _.
    split; [by eexists|]. split; [done|]. by apply Hall.
Qed.

Lemma GetTXs_true_iff_witness :
  (GetTXs testdata.pm "peerA" [[x01]; [x02]]).2 = Returns true.
Proof.
  apply (GetTXs_true_iff testdata.pm "peerA" [[x01]; [x02]]).
  split; [vm_compute; eexists; reflexivity|]. split; [discriminate|].
  repeat constructor; discriminate.
Defined.

Lemma peers_of_elem (m : gmap PeerID RemotePeer) (p : option RemotePeer) :
  p ∈ peers_of m ↔ ∃ (ID : PeerID) peer, p = Some peer ∧ m !! ID = Some peer.
Proof.
  unfold peers_of. rewrite list_elem_of_fmap. split.
  - intros ([ID peer] & -> & Hin). exists ID, peer.
    split; [done|]. by apply elem_of_map_to_list.
  - intros (ID & peer & -> & Hin). exists (ID, peer).
    split; [done|]. by apply elem_of_map_to_list.
Qed.

(** X18.  [insertPeer] and [deletePeer] keep the snapshot in step with the
    peer table: after either, looking up the id gives the inserted peer,
    or nothing, and every other id is as before; the snapshot holds
    exactly the peers of the table, as many entries as the table has, and
    no nil; and the notice cache is not touched. *)
Theorem peer_table_and_snapshot ps (ID : PeerID) peer :
  (GetPeer (insertPeer ps ID peer) ID = Some peer
   ∧ GetPeer (deletePeer ps ID) ID = None
   ∧ ∀ ID' : PeerID,
       ID' ≠ ID →
       GetPeer (insertPeer ps ID peer) ID' = GetPeer ps ID'
       ∧ GetPeer (deletePeer ps ID) ID' = GetPeer ps ID')
  ∧ (∀ ps', ps' = insertPeer ps ID peer ∨ ps' = deletePeer ps ID →
       (∀ p : option RemotePeer,
          p ∈ GetPeers ps' ↔ ∃ (ID' : PeerID) peer', p = Some peer'
                                                    ∧ GetPeer ps' ID' = Some peer')
       ∧ length (GetPeers ps') = size (remotePeers ps')
       ∧ invCache ps' = invCache ps).
Proof.
  split.
  - unfold GetPeer, insertPeer, deletePeer. simpl.
    rewrite lookup_insert_eq, lookup_delete_eq. repeat split; try done.
    + by rewrite lookup_insert_ne.
    + by rewrite lookup_delete_ne.
  - intros ps' [-> | ->]; unfold GetPeers, GetPeer, insertPeer, deletePeer;
      simpl; (split; [apply peers_of_elem|]); split; try done;
      unfold peers_of; by rewrite length_fmap, length_map_to_list.
Qed.

Lemma peer_table_and_snapshot_witness :
  length (GetPeers (deletePeer testdata.pm "peerB"))
  = size (remotePeers (deletePeer testdata.pm "peerB")).
Proof.
  apply (peer_table_and_snapshot testdata.pm "peerB" testdata.peerB). by right.
Defined.

(** X19.  The inbound side of the handshake arbitration: a new inbound
    connection is turned down, and the manager left as it is, exactly when
    the peer is already registered and the own id compares lower than or
    equal to the peer's; in every other case the peer is registered anew
    as [RUNNING], in place of the one registered before if there was one,
    and no other peer is touched. *)
Theorem tryAddInboundPeer_arbitration (ComparePeerID : PeerID → PeerID → Z)
    (selfID : PeerID) ps (peerID : PeerID) :
  ((tryAddInboundPeer ComparePeerID selfID ps peerID).2 = false
   ↔ is_Some (GetPeer ps peerID) ∧ ComparePeerID selfID peerID ≤ 0)
  ∧ ((tryAddInboundPeer ComparePeerID selfID ps peerID).2 = false →
     (tryAddInboundPeer ComparePeerID selfID ps peerID).1 = ps)
  ∧ ((tryAddInboundPeer ComparePeerID selfID ps peerID).2 = true →
     GetPeer (tryAddInboundPeer ComparePeerID selfID ps peerID).1 peerID
       = Some (mkRemotePeer peerID RUNNING)
     ∧ ∀ ID' : PeerID,
         ID' ≠ peerID →
         GetPeer (tryAddInboundPeer ComparePeerID selfID ps peerID).1 ID'
         = GetPeer ps ID').
Proof.
  unfold tryAddInboundPeer, GetPeer.
  destruct (Z.leb_spec (ComparePeerID selfID peerID) 0) as [Hle|Hgt];
    case_bool_decide as Hfound; simpl.
  - split; [by split|]. split; [done|]. done.
  - split; [split; [done|by intros [? _]]|]. split; [done|]. intros _.
    rewrite lookup_insert_eq. split; [done|]. intros ID' Hne.
    by rewrite lookup_insert_ne.
  - split; [split; [done|intros [_ ?]; lia]|]. split; [done|]. intros _.
    rewrite lookup_insert_eq. split; [done|]. intros ID' Hne.
    by rewrite lookup_insert_ne.
  - split; [split; [done|intros [_ ?]; lia]|]. split; [done|]. intros _.
    rewrite lookup_insert_eq. split; [done|]. intros ID' Hne.
    by rewrite lookup_insert_ne.
Qed.

(** Seen from "peerA", a second inbound connection of the longer-named
    "peerLong" is turned down; seen from "peerLong", one of "peerA"
    replaces the registered peer. *)
Lemma tryAddInboundPeer_arbitration_witness :
  (tryAddInboundPeer testdata_more.compare_length "peerA"
     (insertPeer testdata.pm "peerLong" (mkRemotePeer "peerLong" STOPPING))
     "peerLong").2 = false
  ∧ GetPeer (tryAddInboundPeer testdata_more.compare_length "peerLong"
               (insertPeer testdata.pm "peerA" (mkRemotePeer "peerA" STOPPING))
               "peerA").1 "peerA"
    = Some (mkRemotePeer "peerA" RUNNING).
Proof.
  split.
  - apply (tryAddInboundPeer_arbitration testdata_more.compare_length "peerA"
             (insertPeer testdata.pm "peerLong" (mkRemotePeer "peerLong" STOPPING))
             "peerLong").
    split; [vm_compute; eexists; reflexivity|]. vm_compute. discriminate.
  - apply (tryAddInboundPeer_arbitration testdata_more.compare_length "peerLong"
             (insertPeer testdata.pm "peerA" (mkRemotePeer "peerA" STOPPING))
             "peerA").
    vm_compute. reflexivity.
Defined.

(** X20.  [VerifyData] accepts exactly when the public key parses, the peer id
    derived from it is the peer id given, and the key verifies the
    signature over the data; an error of any of the three steps is a
    rejection. *)
Theorem VerifyData_true_iff `{Crypto} (data signature : list byte)
    (peerID : PeerID) (pubKeyData : list byte) :
  VerifyData data signature peerID pubKeyData = true
  ↔ ∃ key : PubKey,
      UnmarshalPublicKey pubKeyData = Some key
      ∧ IDFromPublicKey key = Some peerID
      ∧ Verify key data signature = Some true.
Proof.
  unfold VerifyData. split.
  - destruct (UnmarshalPublicKey pubKeyData) as [key|]; [|done].
    destruct (IDFromPublicKey key) as [idFromKey|] eqn:Hid; [|done].
    case_bool_decide as Heq; simpl; [|done]. subst idFromKey.
    destruct (Verify key data signature) as [[|]|] eqn:Hv; [|done..].
    intros _. by exists key.
  - intros (key & -> & -> & ->). by rewrite bool_decide_eq_true_2.
Qed.

Lemma VerifyData_true_iff_witness :
  @VerifyData testdata_more.plain_keys [x01; x02] [x41; x01; x02] "A" [x41]
  = true.
Proof.
  apply (@VerifyData_true_iff testdata_more.plain_keys).
  exists [x41]. repeat split; reflexivity.
Defined.

End p2p_more_facts.

(** ** The bound of the notice cache, and block numbers as bytes *)

Section cache_facts.
Import p2p.
Context `{iServ : ActorService}.

Implicit Types (ps : peerManager) (c : lruCache).

Lemma lru_Contains_false c (key : string) :
  lru_Contains c key = false ↔ key ∉ (lru_items c).*1.
Proof. unfold lru_Contains. by rewrite bool_decide_eq_false. Qed.

(** The entries after a key that was not there is added to a cache
    within its bound. *)
Lemma lru_miss_items c (key : string) (value : list byte) :
  lru_Contains c key = false →
  (length (lru_items c) ≤ lru_size c)%nat →
  lru_items (lru_ContainsOrAdd c key value).1
  = take (lru_size c) ((key, value) :: lru_items c).
Proof.
  intros Hmiss Hbound. unfold lru_ContainsOrAdd, lru_Add. rewrite Hmiss.
  destruct (Nat.ltb_spec (lru_size c) (length ((key, value) :: lru_items c)))
    as [Hfull|Hroom]; simpl in *.
  - change (removelast ((key, value) :: lru_items c)
            = take (lru_size c) ((key, value) :: lru_items c)).
    rewrite removelast_firstn_len. simpl length. simpl Init.Nat.pred.
    by replace (lru_size c) with (length (lru_items c)) by lia.
  - destruct (lru_size c) as [|n]; [lia|]. simpl.
    by rewrite take_ge by lia.
Qed.

Lemma lru_ContainsOrAdd_bounded c (key : string) (value : list byte) :
  (length (lru_items c) ≤ lru_size c)%nat →
  NoDup (lru_items c).*1 →
  (length (lru_items (lru_ContainsOrAdd c key value).1) ≤ lru_size c)%nat
  ∧ NoDup (lru_items (lru_ContainsOrAdd c key value).1).*1.
Proof.
  intros Hbound Hnd.
  destruct (lru_Contains c key) eqn:Hc.
  - unfold lru_ContainsOrAdd. by rewrite Hc.
  - rewrite (lru_miss_items _ _ _ Hc Hbound). split.
    + rewrite length_take. lia.
    + rewrite fmap_take. eapply sublist_NoDup; [|apply sublist_take].
      rewrite fmap_cons. apply NoDup_cons. split; [|done].
      by apply lru_Contains_false.
Qed.

Lemma HandleNewBlockNotice_peers ps (peerID : PeerID) (b64hash : string)
    (hash : list byte) :
  remotePeers (HandleNewBlockNotice ps peerID b64hash hash).1 = remotePeers ps
  ∧ peerCache (HandleNewBlockNotice ps peerID b64hash hash).1 = peerCache ps.
Proof.
  unfold HandleNewBlockNotice.
  destruct (lru_ContainsOrAdd _ _ _) as [cache [[|] evicted]]; [done|].
  destruct (CallRequest _ _) as [err| |[e|]]; done.
Qed.

(** X21.  Over any sequence of block notices the notice cache stays within its
    capacity and holds no hash twice, its capacity does not change, and
    the peer table and the snapshot are not touched. *)
Theorem notice_cache_bounded ps (notices : list (PeerID * string * list byte)) :
  (length (lru_items (invCache ps)) ≤ lru_size (invCache ps))%nat →
  NoDup (lru_items (invCache ps)).*1 →
  (length (lru_items (invCache (HandleNewBlockNotices ps notices).1))
   ≤ lru_size (invCache ps))%nat
  ∧ NoDup (lru_items (invCache (HandleNewBlockNotices ps notices).1)).*1
  ∧ lru_size (invCache (HandleNewBlockNotices ps notices).1) = lru_size (invCache ps)
  ∧ remotePeers (HandleNewBlockNotices ps notices).1 = remotePeers ps
  ∧ peerCache (HandleNewBlockNotices ps notices).1 = peerCache ps.
Proof.
  revert ps. induction notices as [|[[peerID b64hash] hash] notices IH];
    intros ps Hbound Hnd; [done|].
  simpl.
  pose proof (HandleNewBlockNotice_cache ps peerID b64hash hash) as Hcache.
  destruct (HandleNewBlockNotice_peers ps peerID b64hash hash) as [Hrp Hpc].
  destruct (HandleNewBlockNotice ps peerID b64hash hash) as [ps1 ev1].
  simpl in Hcache, Hrp, Hpc.
  destruct (lru_ContainsOrAdd_bounded (invCache ps) b64hash hash Hbound Hnd)
    as [Hbound1 Hnd1].
  pose proof (lru_ContainsOrAdd_size (invCache ps) b64hash hash) as Hsize1.
  rewrite <- Hcache in Hbound1, Hnd1, Hsize1.
  specialize (IH ps1). rewrite Hsize1 in IH.
  destruct (IH Hbound1 Hnd1) as (? & ? & ? & ? & ?).
  destruct (HandleNewBlockNotices ps1 notices) as [ps2 ev2]. simpl in *.
  repeat split; congruence.
Qed.

Lemma take_app_take {A} (n : nat) (l1 l2 : list A) :
  take n (l1 ++ take n l2) = take n (l1 ++ l2).
Proof.
  rewrite !take_app, take_take. f_equal. f_equal. lia.
Qed.

(** Notices of hashes that are new to the cache and differ from each
    other each go to the front; the cache is what fits of them and of the
    entries before. *)
Lemma HandleNewBlockNotices_new (notices : list (PeerID * string * list byte)) :
  ∀ ps,
    (length (lru_items (invCache ps)) ≤ lru_size (invCache ps))%nat →
    NoDup (lru_items (invCache ps)).*1 →
    NoDup ((λ n : PeerID * string * list byte, n.1.2) <$> notices) →
    (∀ n, n ∈ notices → n.1.2 ∉ (lru_items (invCache ps)).*1) →
    lru_items (invCache (HandleNewBlockNotices ps notices).1)
    = take (lru_size (invCache ps))
        (reverse ((λ n : PeerID * string * list byte, (n.1.2, n.2)) <$> notices)
         ++ lru_items (invCache ps)).
Proof.
  induction notices as [|[[peerID b64hash] hash] notices IH];
    intros ps Hbound Hnd Hdistinct Hnew.
  { simpl. by rewrite take_ge. }
  simpl.
  pose proof (HandleNewBlockNotice_cache ps peerID b64hash hash) as Hcache.
  destruct (HandleNewBlockNotice ps peerID b64hash hash) as [ps1 ev1].
  simpl in Hcache.
  assert (lru_Contains (invCache ps) b64hash = false) as Hmiss.
  { apply lru_Contains_false. apply (Hnew (peerID, b64hash, hash)). left. }
  pose proof (lru_miss_items (invCache ps) b64hash hash Hmiss Hbound) as Hitems.
  destruct (lru_ContainsOrAdd_bounded (invCache ps) b64hash hash Hbound Hnd)
    as [Hbound1 Hnd1].
  pose proof (lru_ContainsOrAdd_size (invCache ps) b64hash hash) as Hsize1.
  rewrite <- Hcache in Hitems, Hbound1, Hnd1, Hsize1.
  rewrite fmap_cons in Hdistinct. apply NoDup_cons in Hdistinct as [Hhead Hdistinct].
  specialize (IH ps1). rewrite Hsize1 in IH.
  destruct (HandleNewBlockNotices ps1 notices) as [ps2 ev2] eqn:Hrest.
  simpl in *. rewrite IH; try done.
  - rewrite Hitems, reverse_cons, <- app_assoc. simpl. apply take_app_take.
  - intros n Hn. rewrite Hitems, fmap_take. intros Hin.
    apply elem_of_take in Hin as (i & Hi & _).
    apply list_elem_of_lookup_2 in Hi. rewrite fmap_cons in Hi.
    apply elem_of_cons in Hi as [Heq|Hold].
    + apply Hhead. simpl in Heq. rewrite <- Heq.
      apply list_elem_of_fmap. by exists n.
    + apply (Hnew n); [by right|done].
Qed.

(** X22.  The capacity is also the end of the memory of the cache: a hash at
    place [i] is gone from the cache once so many notices of other, new
    and different hashes have come in that [i] plus their number reaches
    the capacity; a notice of the hash is then sent on to the chain
    service again. *)
Theorem notice_evicted_at_capacity ps (others : list (PeerID * string * list byte))
    (peerID : PeerID) (b64hash : string) (hash : list byte) (i : nat) :
  (length (lru_items (invCache ps)) ≤ lru_size (invCache ps))%nat →
  NoDup (lru_items (invCache ps)).*1 →
  (lru_items (invCache ps)).*1 !! i = Some b64hash →
  NoDup ((λ n : PeerID * string * list byte, n.1.2) <$> others) →
  (∀ n, n ∈ others → n.1.2 ∉ (lru_items (invCache ps)).*1) →
  (0 < lru_size (invCache ps) ≤ i + length others)%nat →
  lru_Contains (invCache (HandleNewBlockNotices ps others).1) b64hash = false
  ∧ (HandleNewBlockNotice (HandleNewBlockNotices ps others).1 peerID b64hash hash).2
    = EvCallRequest ChainSvc (GetBlock hash)
      :: match CallRequest ChainSvc (GetBlock hash) with
         | GetBlockRsp (Some _) =>
             [EvSendRequest P2PSvc (GetBlockInfos peerID [hash])]
         | _ => []
         end.
Proof.
  intros Hbound Hnd Hi Hdistinct Hnew [Hpos Hfull].
  destruct (notice_cache_bounded ps others Hbound Hnd) as (_ & _ & Hsize & _).
  assert (lru_Contains (invCache (HandleNewBlockNotices ps others).1) b64hash
          = false) as Hgone.
  { apply lru_Contains_false.
    rewrite (HandleNewBlockNotices_new others ps Hbound Hnd Hdistinct Hnew).
    rewrite fmap_take. intros Hin.
    apply elem_of_take in Hin as (j & Hj & Hlt).
    rewrite fmap_app, fmap_reverse, <- list_fmap_compose in Hj.
    set (new := reverse _) in Hj.
    assert (length new = length others) as Hlen
      by (unfold new; by rewrite length_reverse, length_fmap).
    assert ((new ++ (lru_items (invCache ps)).*1) !! (length new + i)%nat
            = Some b64hash) as Hthere.
    { rewrite lookup_app_r by lia. by replace (length new + i - length new)%nat with i by lia. }
    assert (NoDup (new ++ (lru_items (invCache ps)).*1)) as Hnd'.
    { apply NoDup_app. split; [|split; [|done]].
      - unfold new. by rewrite reverse_Permutation.
      - intros x Hx. unfold new in Hx. rewrite elem_of_reverse in Hx.
        apply list_elem_of_fmap in Hx as (n & -> & Hn). by apply Hnew. }
    pose proof (NoDup_lookup _ _ _ _ Hnd' Hj Hthere). lia. }
  split; [done|].
  apply HandleNewBlockNotice_miss; [done|]. by rewrite Hsize.
Qed.

End cache_facts.

Lemma notice_cache_bounded_witness :
  (length (p2p.lru_items (p2p.invCache
     (@p2p.HandleNewBlockNotices testdata.chain_without_blocks testdata.pm
        [("peerA", "b1", [x01]); ("peerB", "b1", [x01]); ("peerB", "b2", [x02])]).1))
   ≤ 100)%nat.
Proof.
  apply (@notice_cache_bounded testdata.chain_without_blocks testdata.pm
           [("peerA", "b1", [x01]); ("peerB", "b1", [x01]); ("peerB", "b2", [x02])]).
  - simpl. lia.
  - constructor.
Defined.

(** A cache of capacity 2 that holds one hash forgets it after two
    notices of other hashes. *)
Lemma notice_evicted_at_capacity_witness :
  p2p.lru_Contains
    (p2p.invCache
       (@p2p.HandleNewBlockNotices testdata.chain_without_blocks
          (p2p.mkPeerManager ∅ [] (p2p.mkLru 2 [("b0", [x00])]))
          [("peerA", "b1", [x01]); ("peerB", "b2", [x02])]).1) "b0"
  = false.
Proof.
  apply (@notice_evicted_at_capacity testdata.chain_without_blocks
           (p2p.mkPeerManager ∅ [] (p2p.mkLru 2 [("b0", [x00])]))
           [("peerA", "b1", [x01]); ("peerB", "b2", [x02])]
           "peerA" "b0" [x00] 0).
  - simpl. lia.
  - repeat constructor. apply not_elem_of_nil.
  - reflexivity.
  - repeat constructor; simpl.
    + intros H. apply list_elem_of_singleton in H. discriminate.
    + apply not_elem_of_nil.
  - intros n Hn. simpl. intros Hin. apply list_elem_of_singleton in Hin.
    apply elem_of_cons in Hn as [->|Hn]; [discriminate|].
    apply list_elem_of_singleton in Hn as ->. discriminate.
  - simpl. lia.
Defined.

(** *** Block numbers as bytes *)

Lemma byte_of_small (z : Z) :
  0 ≤ z < 256 → Z.of_N (Byte.to_N (default x00 (Byte.of_N (Z.to_N z)))) = z.
Proof.
  intros Hz. destruct (Byte.of_N (Z.to_N z)) as [b|] eqn:Hb; simpl.
  - apply Byte.to_of_N in Hb. rewrite Hb. lia.
  - apply Byte.of_N_None_iff in Hb. lia.
Qed.

Lemma le_bytes_length (n : nat) (z : Z) : length (le_bytes n z) = n.
Proof. revert z. induction n as [|n IH]; intros z; simpl; [done|]. by rewrite IH. Qed.

Lemma le_value_le_bytes (n : nat) (z : Z) :
  le_value (le_bytes n z) = z mod 256 ^ Z.of_nat n.
Proof.
  revert z. induction n as [|n IH]; intros z.
  - simpl. by rewrite Z.mod_1_r.
  - cbn [le_bytes le_value]. rewrite IH, byte_of_small.
    + rewrite Nat2Z.inj_succ, Z.pow_succ_r by lia.
      rewrite Z.rem_mul_r; [done|lia|].
      apply Z.pow_pos_nonneg; lia.
    + apply Z.mod_pos_bound. lia.
Qed.

(** X23.  [BlockNoToBytes] writes eight bytes, and [BlockNoFromBytes] reads a
    block number back from them, also when more bytes follow; on fewer than
    eight bytes it panics. *)
Theorem BlockNo_bytes_roundtrip (bn : BlockNo) :
  0 ≤ bn < 2 ^ 64 →
  length (BlockNoToBytes bn) = 8%nat
  ∧ (∀ more : list byte, BlockNoFromBytes (BlockNoToBytes bn ++ more) = Some bn)
  ∧ (∀ n : nat, (n < 8)%nat → BlockNoFromBytes (take n (BlockNoToBytes bn)) = None).
Proof.
  intros Hbn. unfold BlockNoToBytes, BlockNoFromBytes.
  split; [apply le_bytes_length|]. split.
  - intros more. rewrite length_app, le_bytes_length. simpl Nat.ltb.
    destruct (Nat.ltb_spec (8 + length more) 8); [lia|].
    rewrite take_app_length' by (by rewrite le_bytes_length).
    rewrite le_value_le_bytes. f_equal. apply Z.mod_small.
    change (256 ^ Z.of_nat 8) with (2 ^ 64). lia.
  - intros n Hn. rewrite length_take, le_bytes_length.
    by destruct (Nat.ltb_spec (n `min` 8) 8); [|lia].
Qed.

Lemma BlockNo_bytes_roundtrip_witness :
  BlockNoFromBytes (BlockNoToBytes 258 ++ [xff]) = Some 258.
Proof.
  apply (BlockNo_bytes_roundtrip 258). lia.
Defined.
